(** * Expectation-Maximization for two biased coins (notebook NB16_CXIII)

    A shallow embedding of the notebook's code cells:
    - [compute_likelihood], the Binomial probability mass;
    - the closed-form MLE computed while the experiments are generated;
    - the E-M [while] loop writing its trace into two pre-allocated
      arrays of 100 slots;
    - the twenty random restarts, their accuracy column and the final
      [sort_values].

    Numbers.  The notebook computes with numpy [float64] scalars.  Here a
    [float64] is an exact rational or one of the IEEE special values
    [+inf], [-inf], [nan]: rounding is abstracted (arithmetic on finite
    values is exact), the non-trapping treatment of [x / 0], [inf - inf],
    [0 * inf] and the behaviour of comparisons on [nan] are kept.  Zero is
    unsigned and divides like [+0.0].  Python's own [float] and [int]
    differ from numpy scalars in one respect the code depends on: a true
    division by zero raises [ZeroDivisionError].

    Range.  [comb(n, obs, exact=True)] is a Python [int], and its product
    with a numpy scalar converts it to a double first: from 1030 tosses on
    a coefficient can be too large and the conversion raises
    [OverflowError].  [EM] and [Restart] are the cells for coefficients
    that fit a double (the notebook tosses ten times); [Overflow] is the
    same code with the conversion, and [OverflowFacts] relates the two. *)

From stdpp Require Import list.
From Stdlib Require Import ZArith QArith Qabs Qpower Qreals Reals Lia Psatz.
From Stdlib Require Import Permutation Sorted.

Local Open Scope Q_scope.

(** ** Numpy float64 scalars *)

Module Float64.

Inductive float64 : Type :=
| Fin (q : Q)
| PInf
| NInf
| NaN.

(** Sign of a rational: [Lt], [Eq] or [Gt] as [q] is negative, zero or
    positive. *)
Definition Qsign (q : Q) : comparison := (0 ?= q)%Q.

Definition fneg (x : float64) : float64 :=
  match x with
  | Fin q => Fin (- q)
  | PInf => NInf
  | NInf => PInf
  | NaN => NaN
  end.

Definition fadd (x y : float64) : float64 :=
  match x, y with
  | NaN, _ | _, NaN => NaN
  | Fin a, Fin b => Fin (a + b)
  | PInf, NInf | NInf, PInf => NaN
  | PInf, _ | _, PInf => PInf
  | NInf, _ | _, NInf => NInf
  end.

Definition fsub (x y : float64) : float64 := fadd x (fneg y).

(** An infinity times a finite value of the given sign. *)
Definition inf_times (pos : bool) (s : comparison) : float64 :=
  match s with
  | Eq => NaN
  | Lt => if pos then PInf else NInf
  | Gt => if pos then NInf else PInf
  end.

Definition fmul (x y : float64) : float64 :=
  match x, y with
  | NaN, _ | _, NaN => NaN
  | Fin a, Fin b => Fin (a * b)
  | PInf, Fin b => inf_times true (Qsign b)
  | NInf, Fin b => inf_times false (Qsign b)
  | Fin a, PInf => inf_times true (Qsign a)
  | Fin a, NInf => inf_times false (Qsign a)
  | PInf, PInf | NInf, NInf => PInf
  | PInf, NInf | NInf, PInf => NInf
  end.

(** numpy's true division never raises: [x / 0] is an infinity of the
    sign of [x], and [0 / 0] is [nan]. *)
Definition fdiv (x y : float64) : float64 :=
  match x, y with
  | NaN, _ | _, NaN => NaN
  | Fin a, Fin b =>
      match Qsign b with
      | Eq => match Qsign a with
              | Eq => NaN
              | Lt => PInf
              | Gt => NInf
              end
      | _ => Fin (a / b)
      end
  | Fin _, PInf | Fin _, NInf => Fin 0
  | PInf, Fin b => match Qsign b with Gt => NInf | _ => PInf end
  | NInf, Fin b => match Qsign b with Gt => PInf | _ => NInf end
  | _, _ => NaN
  end.

Definition fabs (x : float64) : float64 :=
  match x with
  | Fin q => Fin (Qabs q)
  | PInf | NInf => PInf
  | NaN => NaN
  end.

(** [x > y]; every comparison with [nan] is false. *)
Definition fgt (x y : float64) : bool :=
  match x, y with
  | NaN, _ | _, NaN => false
  | Fin a, Fin b => match (b ?= a)%Q with Lt => true | _ => false end
  | PInf, PInf => false
  | PInf, _ => true
  | _, NInf => match x with NInf => false | _ => true end
  | _, _ => false
  end.

(** [x ** k] for an integer exponent [k].  As in C's [pow], [x ** 0] is 1
    for every [x], [nan] included. *)
Definition fpow_pos (x : float64) (k : positive) : float64 :=
  match x with
  | Fin q => Fin (Qpower_positive q k)
  | PInf => PInf
  | NInf => match k with xO _ => PInf | _ => NInf end
  | NaN => NaN
  end.

Definition fpow (x : float64) (k : Z) : float64 :=
  match k with
  | Z0 => Fin 1
  | Zpos p => fpow_pos x p
  | Zneg p => fdiv (Fin 1) (fpow_pos x p)
  end.

Definition of_Z (z : Z) : float64 := Fin (inject_Z z).
Definition of_nat (n : nat) : float64 := of_Z (Z.of_nat n).

(** Equality of values: rationals are compared by [Qeq]. *)
Definition feq (x y : float64) : Prop :=
  match x, y with
  | Fin a, Fin b => a == b
  | PInf, PInf | NInf, NInf | NaN, NaN => True
  | _, _ => False
  end.

(** [np.sum] and the builtin [sum] both add from zero. *)
Definition fsum (l : list float64) : float64 := fold_left fadd l (Fin 0).

End Float64.

Export Float64.

Declare Scope float_scope.
Delimit Scope float_scope with fl.
Infix "+" := fadd : float_scope.
Infix "-" := fsub : float_scope.
Infix "*" := fmul : float_scope.
Infix "/" := fdiv : float_scope.
Infix "==" := feq (at level 70, no associativity) : float_scope.

(** ** Python exceptions and outcomes *)

Module Py.

Inductive exn : Type :=
| ZeroDivisionError
| IndexError
| TypeError
| NameError
| OverflowError.

(** What running a piece of the notebook gives: a value, an uncaught
    exception, or [Unfinished] when a loop was cut by its fuel. *)
Inductive outcome (A : Type) : Type :=
| Returns (a : A)
| Raises (e : exn)
| Unfinished.

Arguments Returns {A} a.
Arguments Raises {A} e.
Arguments Unfinished {A}.

Definition bind {A B : Type} (c : outcome A) (k : A -> outcome B) : outcome B :=
  match c with
  | Returns a => k a
  | Raises e => Raises e
  | Unfinished => Unfinished
  end.

(** [a[i]] on a numpy array. *)
Definition getitem {A : Type} (a : list A) (i : nat) : outcome A :=
  match a !! i with
  | Some x => Returns x
  | None => Raises IndexError
  end.

(** [a[i] = x] on a numpy array: the array never grows. *)
Definition setitem {A : Type} (a : list A) (i : nat) (x : A) : outcome (list A) :=
  if decide (i < length a)%nat then Returns (<[i := x]> a) else Raises IndexError.

(** The builtin [max] of a two-element sequence keeps the first element
    unless the second compares greater. *)
Definition max2 (x y : float64) : float64 := if fgt y x then y else x.

End Py.

Export Py.

Notation "'let!' x ':=' c 'in' k" := (bind c (fun x => k))
  (at level 10, x pattern, c at level 100, k at level 200).

(** ** The likelihood evaluator *)

(** [scipy.special.comb(n, k, exact=True)]: the exact binomial
    coefficient, 0 when [k > n]. *)
Fixpoint comb (n k : nat) : nat :=
  match k, n with
  | O, _ => 1
  | S _, O => 0
  | S k', S n' => comb n' k' + comb n' k
  end.

(** The value of
    [comb(n, obs, exact=True)*(pheads**obs)*(1.0-pheads)**(n-obs)] for a
    coefficient that fits a double; [Overflow.compute_likelihood] below is
    the function with the conversion of the coefficient. *)
Definition compute_likelihood (obs n : nat) (pheads : float64) : float64 :=
  (of_nat (comb n obs) * fpow pheads (Z.of_nat obs)
   * fpow (Fin 1 - pheads) (Z.of_nat n - Z.of_nat obs))%fl.

(** ** The E-M loop *)

Module EM.

(** Length of the pre-allocated trace arrays, [np.zeros(100)]. *)
Definition trace_len : nat := 100.

(** The variables the loop reads and writes.  [theta_A] and [theta_B] are
    unbound until the first iteration has run. *)
Record state : Type := mkState {
  head_counts : list nat;
  tail_counts : list Z;
  pA_heads : list float64;
  pB_heads : list float64;
  j : nat;
  improvement : float64;
  theta_A : option float64;
  theta_B : option float64
}.

(** A row of [expectation_A] or [expectation_B]: expected heads and
    expected tails of one experiment. *)
Definition row : Type := (float64 * float64)%type.

Definition scale (w : float64) (eH : nat) (eT : Z) : row :=
  (w * of_nat eH, w * of_Z eT)%fl.

Definition weightA (lA lB : float64) : float64 := (lA / (lA + lB))%fl.
Definition weightB (lA lB : float64) : float64 := (lB / (lA + lB))%fl.

Section Loop.

Variable num_coin_toss : nat.
Variable epsilon : Q.

(** Body of the [for] loop over the experiments, for one experiment:
    the two rows it stores. *)
Definition e_step (pA pB : float64) (eH : nat) (eT : Z) : row * row :=
  let lA := compute_likelihood eH num_coin_toss pA in
  let lB := compute_likelihood eH num_coin_toss pB in
  (scale (weightA lA lB) eH eT, scale (weightB lA lB) eH eT).

(** The [for] loop: [pA_heads[j]] and [pB_heads[j]] are read anew for each
    experiment; the loop runs over [min(len(head_counts), len(tail_counts))]
    experiments.  Both arrays have [num_exp] entries, so every one of the
    [num_exp] rows of [expectation_A] and [expectation_B] is assigned, and
    the arrays are the lists of the assigned rows. *)
Fixpoint e_steps (pAs pBs : list float64) (jj : nat) (exps : list (nat * Z))
  : outcome (list row * list row) :=
  match exps with
  | [] => Returns ([], [])
  | (eH, eT) :: rest =>
      let! pA := getitem pAs jj in
      let! pB := getitem pBs jj in
      let '(rA, rB) := e_step pA pB eH eT in
      let! tl := e_steps pAs pBs jj rest in
      Returns (rA :: fst tl, rB :: snd tl)
  end.

(** [np.sum(e, axis = 0)[0] / np.sum(e)] *)
Definition np_theta (e : list row) : float64 :=
  (fsum (map fst e) / fsum (flat_map (fun r => [fst r; snd r]) e))%fl.

Definition row_add (r s : row) : row := (fst r + fst s, snd r + snd s)%fl.

(** The builtin [sum(e)] over the rows of [e] starts from the integer 0:
    without rows it stays an [int], and subscripting it is a [TypeError]. *)
Definition sum_rows (e : list row) : outcome row :=
  match e with
  | [] => Raises TypeError
  | _ :: _ => Returns (fold_left row_add e (Fin 0, Fin 0))
  end.

(** [sum(e)[0] / sum(sum(e))] *)
Definition py_theta (e : list row) : outcome float64 :=
  let! s := sum_rows e in
  Returns (fst s / fsum [fst s; snd s])%fl.

(** One pass through the body of the [while] loop. *)
Definition iteration (s : state) : outcome state :=
  let! es := e_steps (pA_heads s) (pB_heads s) (j s)
                     (zip (head_counts s) (tail_counts s)) in
  let expectation_A := fst es in
  let expectation_B := snd es in
  let thA := np_theta expectation_A in
  let thB := np_theta expectation_B in
  let! a := py_theta expectation_A in
  let! pAs := setitem (pA_heads s) (j s + 1) a in
  let! b := py_theta expectation_B in
  let! pBs := setitem (pB_heads s) (j s + 1) b in
  let! a1 := getitem pAs (j s + 1) in
  let! b1 := getitem pBs (j s + 1) in
  let! a0 := getitem pAs (j s) in
  let! b0 := getitem pBs (j s) in
  Returns {| head_counts := head_counts s;
             tail_counts := tail_counts s;
             pA_heads := pAs;
             pB_heads := pBs;
             j := j s + 1;
             improvement := max2 (fabs (a1 - a0)) (fabs (b1 - b0));
             theta_A := Some thA;
             theta_B := Some thB |}%fl.

(** [while (improvement > epsilon): ...] *)
Fixpoint loop (fuel : nat) (s : state) : outcome state :=
  if fgt (improvement s) (Fin epsilon) then
    match fuel with
    | O => Unfinished
    | S fuel' => let! s' := iteration s in loop fuel' s'
    end
  else Returns s.

(** The variables as the notebook sets them before the loop. *)
Definition init (heads : list nat) (pA0 pB0 : float64) : state :=
  {| head_counts := heads;
     tail_counts := map (fun h => (Z.of_nat num_coin_toss - Z.of_nat h)%Z) heads;
     pA_heads := <[0%nat := pA0]> (replicate trace_len (Fin 0));
     pB_heads := <[0%nat := pB0]> (replicate trace_len (Fin 0));
     j := 0;
     improvement := PInf;
     theta_A := None;
     theta_B := None |}.

(** The whole run.  The fuel is never exhausted: the store into slot
    100 raises first. *)
Definition run_em (heads : list nat) (pA0 pB0 : float64) : outcome state :=
  loop (S trace_len) (init heads pA0 pB0).

(** The trace the run leaves in the arrays: slots [0..j]. *)
Definition trace (s : state) : list (float64 * float64) :=
  zip (take (S (j s)) (pA_heads s)) (take (S (j s)) (pB_heads s)).

End Loop.

End EM.

(** ** The reference MLE, computed while the experiments are generated *)

Module MLE.

(** A Python [float] or a numpy [float64] scalar.  [MLE_A = 0.0] is a
    Python float; adding a numpy array element to it gives a numpy scalar. *)
Inductive scalar : Type :=
| PyFloat (x : float64)
| NpFloat (x : float64).

Definition value (v : scalar) : float64 :=
  match v with PyFloat x | NpFloat x => x end.

(** [v + head_counts[i]] *)
Definition add_np (v : scalar) (h : float64) : scalar :=
  NpFloat (value v + h)%fl.

(** [v / d] for a Python [int] [d].  Between a Python float and a Python
    int a zero divisor raises; a numpy scalar divides like [fdiv]. *)
Definition truediv_int (v : scalar) (d : Z) : outcome scalar :=
  match v with
  | PyFloat x =>
      if (d =? 0)%Z then Raises ZeroDivisionError
      else Returns (PyFloat (x / of_Z d)%fl)
  | NpFloat x => Returns (NpFloat (x / of_Z d)%fl)
  end.

(** The variables of the generation loop.  The arrays hold integer-valued
    floats and are kept as lists of naturals. *)
Record gen : Type := mkGen {
  coin_choice : list nat;
  head_counts : list nat;
  MLE_A : scalar;
  MLE_B : scalar
}.

(** One experiment: the value of [np.random.randint(2)] and the head
    count drawn by [np.random.binomial] for the selected coin. *)
Definition draw : Type := (nat * nat)%type.

Definition gen_init (num_exp : nat) : gen :=
  {| coin_choice := replicate num_exp 0%nat;
     head_counts := replicate num_exp 0%nat;
     MLE_A := PyFloat (Fin 0);
     MLE_B := PyFloat (Fin 0) |}.

(** Body of [for i in np.arange(num_exp)]. *)
Definition gen_step (i : nat) (d : draw) (g : gen) : gen :=
  if (fst d =? 0)%nat then
    {| coin_choice := coin_choice g;
       head_counts := <[i := snd d]> (head_counts g);
       MLE_A := add_np (MLE_A g) (of_nat (snd d));
       MLE_B := MLE_B g |}
  else
    {| coin_choice := <[i := 1%nat]> (coin_choice g);
       head_counts := <[i := snd d]> (head_counts g);
       MLE_A := MLE_A g;
       MLE_B := add_np (MLE_B g) (of_nat (snd d)) |}.

Fixpoint gen_loop (i : nat) (ds : list draw) (g : gen) : gen :=
  match ds with
  | [] => g
  | d :: rest => gen_loop (S i) rest (gen_step i d g)
  end.

(** [np.count_nonzero], a Python [int]. *)
Definition count_nonzero (a : list nat) : nat :=
  length (filter (fun c => c <> 0%nat) a).

(** Generation followed by the two normalising divisions; [num_exp] is the
    number of draws. *)
Definition compute_mle (num_coin_toss : nat) (ds : list draw)
  : outcome (scalar * scalar) :=
  let num_exp := length ds in
  let g := gen_loop 0 ds (gen_init num_exp) in
  let nB := count_nonzero (coin_choice g) in
  let! a := truediv_int (MLE_A g)
              ((Z.of_nat num_exp - Z.of_nat nB) * Z.of_nat num_coin_toss) in
  let! b := truediv_int (MLE_B g) (Z.of_nat nB * Z.of_nat num_coin_toss) in
  Returns (a, b).

End MLE.

(** ** Random restarts and their ranking *)

Module Restart.

(** A row of the data frame. *)
Record result : Type := mkResult {
  pA_init : float64;
  pB_init : float64;
  pA_out : float64;
  pB_out : float64;
  acc : float64
}.

Section Driver.

Variable num_coin_toss : nat.
Variable epsilon : Q.
Variables theta_A_true theta_B_true : float64.

(** [np.abs(pA_out - theta_A_true) + np.abs(pB_out - theta_B_true)] *)
Definition accuracy (a b : float64) : float64 :=
  (fabs (a - theta_A_true) + fabs (b - theta_B_true))%fl.

(** Body of [for n_init in range(20)] for the pair of values drawn by
    [np.random.rand()] (the notebook draws twenty pairs): an exception of
    the E-M loop is not caught.  [pA_out[n_init]] receives the last
    [theta_A] the loop assigned. *)
Definition restart (heads : list nat) (guess : float64 * float64)
  : outcome (float64 * float64 * float64 * float64) :=
  let! s := EM.run_em num_coin_toss epsilon heads (fst guess) (snd guess) in
  match EM.theta_A s, EM.theta_B s with
  | Some a, Some b => Returns (fst guess, snd guess, a, b)
  | _, _ => Raises NameError
  end.

Fixpoint restarts (heads : list nat) (guesses : list (float64 * float64))
  : outcome (list (float64 * float64 * float64 * float64)) :=
  match guesses with
  | [] => Returns []
  | g :: rest =>
      let! r := restart heads g in
      let! rs := restarts heads rest in
      Returns (r :: rs)
  end.

(** The data frame with its [acc] column. *)
Definition frame (rs : list (float64 * float64 * float64 * float64))
  : list result :=
  map (fun '(a0, b0, a, b) =>
         {| pA_init := a0; pB_init := b0; pA_out := a; pB_out := b;
            acc := accuracy a b |}) rs.

(** Ascending order of the sort key as [sort_values] uses it: numbers in
    increasing order, [nan] after every number. *)
Definition key_le (x y : float64) : bool :=
  match x, y with
  | _, NaN => true
  | NaN, _ => false
  | NInf, _ => true
  | _, NInf => false
  | _, PInf => true
  | PInf, _ => false
  | Fin a, Fin b => Qle_bool a b
  end.

(** [df.sort_values('acc')], as an insertion sort on the rows.  pandas
    leaves the relative order of rows with equal keys to its sorting
    algorithm; nothing below depends on it. *)
Fixpoint insert_row (r : result) (l : list result) : list result :=
  match l with
  | [] => [r]
  | r' :: l' =>
      if key_le (acc r) (acc r') then r :: l else r' :: insert_row r l'
  end.

Definition sort_values (l : list result) : list result :=
  fold_right insert_row [] l.

Definition run_multi_restart (heads : list nat)
                             (guesses : list (float64 * float64))
  : outcome (list result) :=
  let! rs := restarts heads guesses in
  Returns (sort_values (frame rs)).

End Driver.

End Restart.

(** ** The same cells with the conversion of the binomial coefficient *)

Module Overflow.
Import EM.

(** The integers from which [float(i)] no longer rounds to a double:
    the conversion rounds to nearest, ties to even, and the largest double
    is [2**1024 - 2**971]. *)
Definition float_bound : Z := (2 ^ 1024 - 2 ^ 970)%Z.

(** The conversion [int * numpy.float64] starts with. *)
Definition float_of_int (i : Z) : outcome float64 :=
  if (float_bound <=? Z.abs i)%Z then Raises OverflowError
  else Returns (of_Z i).

(** [comb(n, obs, exact=True)*(pheads**obs)*(1.0-pheads)**(n-obs)]: the
    first product converts the coefficient. *)
Definition compute_likelihood (obs n : nat) (pheads : float64)
  : outcome float64 :=
  let! c := float_of_int (Z.of_nat (comb n obs)) in
  Returns (c * fpow pheads (Z.of_nat obs)
           * fpow (Fin 1 - pheads) (Z.of_nat n - Z.of_nat obs))%fl.

Section Loop.

Variable num_coin_toss : nat.
Variable epsilon : Q.

(** The [for] loop over the experiments: for each one [lA] is computed
    from [pA_heads[j]], then [lB] from [pB_heads[j]], then the two rows
    are stored. *)
Fixpoint e_steps (pAs pBs : list float64) (jj : nat) (exps : list (nat * Z))
  : outcome (list row * list row) :=
  match exps with
  | [] => Returns ([], [])
  | (eH, eT) :: rest =>
      let! pA := getitem pAs jj in
      let! lA := compute_likelihood eH num_coin_toss pA in
      let! pB := getitem pBs jj in
      let! lB := compute_likelihood eH num_coin_toss pB in
      let rA := scale (weightA lA lB) eH eT in
      let rB := scale (weightB lA lB) eH eT in
      let! tl := e_steps pAs pBs jj rest in
      Returns (rA :: fst tl, rB :: snd tl)
  end.

(** One pass through the body of the [while] loop. *)
Definition iteration (s : state) : outcome state :=
  let! es := e_steps (pA_heads s) (pB_heads s) (j s)
                     (zip (head_counts s) (tail_counts s)) in
  let expectation_A := fst es in
  let expectation_B := snd es in
  let thA := np_theta expectation_A in
  let thB := np_theta expectation_B in
  let! a := py_theta expectation_A in
  let! pAs := setitem (pA_heads s) (j s + 1) a in
  let! b := py_theta expectation_B in
  let! pBs := setitem (pB_heads s) (j s + 1) b in
  let! a1 := getitem pAs (j s + 1) in
  let! b1 := getitem pBs (j s + 1) in
  let! a0 := getitem pAs (j s) in
  let! b0 := getitem pBs (j s) in
  Returns {| head_counts := head_counts s;
             tail_counts := tail_counts s;
             pA_heads := pAs;
             pB_heads := pBs;
             j := j s + 1;
             improvement := max2 (fabs (a1 - a0)) (fabs (b1 - b0));
             theta_A := Some thA;
             theta_B := Some thB |}%fl.

(** [while (improvement > epsilon): ...] *)
Fixpoint loop (fuel : nat) (s : state) : outcome state :=
  if fgt (improvement s) (Fin epsilon) then
    match fuel with
    | O => Unfinished
    | S fuel' => let! s' := iteration s in loop fuel' s'
    end
  else Returns s.

Definition run_em (heads : list nat) (pA0 pB0 : float64) : outcome state :=
  loop (S trace_len) (init num_coin_toss heads pA0 pB0).

Variables theta_A_true theta_B_true : float64.

(** Body of [for n_init in range(20)]. *)
Definition restart (heads : list nat) (guess : float64 * float64)
  : outcome (float64 * float64 * float64 * float64) :=
  let! s := run_em heads (fst guess) (snd guess) in
  match theta_A s, theta_B s with
  | Some a, Some b => Returns (fst guess, snd guess, a, b)
  | _, _ => Raises NameError
  end.

Fixpoint restarts (heads : list nat) (guesses : list (float64 * float64))
  : outcome (list (float64 * float64 * float64 * float64)) :=
  match guesses with
  | [] => Returns []
  | g :: rest =>
      let! r := restart heads g in
      let! rs := restarts heads rest in
      Returns (r :: rs)
  end.

Definition run_multi_restart (heads : list nat)
                             (guesses : list (float64 * float64))
  : outcome (list Restart.result) :=
  let! rs := restarts heads guesses in
  Returns (Restart.sort_values
             (Restart.frame theta_A_true theta_B_true rs)).

End Loop.

End Overflow.

(** * Properties *)

(** ** Arithmetic of the float model *)

Section FloatFacts.

Lemma feq_refl (x : float64) : (x == x)%fl.
Proof. destruct x; simpl; auto with qarith. Qed.

Lemma feq_sym (x y : float64) : (x == y)%fl -> (y == x)%fl.
Proof. destruct x, y; simpl; auto with qarith. Qed.

Lemma feq_trans (x y z : float64) : (x == y)%fl -> (y == z)%fl -> (x == z)%fl.
Proof.
  destruct x, y, z; simpl; try tauto.
  intros H1 H2. now rewrite H1.
Qed.

#[global] Instance feq_equiv : Equivalence feq.
Proof.
  split; [exact feq_refl | exact feq_sym | exact feq_trans].
Qed.

Lemma Qsign_comp (a b : Q) : a == b -> Qsign a = Qsign b.
Proof. intros H. unfold Qsign. now rewrite H. Qed.

Lemma Qsign_Eq (a : Q) : Qsign a = Eq <-> a == 0.
Proof.
  unfold Qsign. rewrite <- Qeq_alt. split; intros H; now symmetry.
Qed.

Lemma Qsign_Lt (a : Q) : Qsign a = Lt <-> 0 < a.
Proof. unfold Qsign. now rewrite <- Qlt_alt. Qed.

#[global] Instance fadd_proper : Proper (feq ==> feq ==> feq) fadd.
Proof.
  intros x x' Hx y y' Hy.
  destruct x, x'; simpl in Hx; try tauto;
    destruct y, y'; simpl in Hy; try tauto; simpl; auto.
  now rewrite Hx, Hy.
Qed.

#[global] Instance fneg_proper : Proper (feq ==> feq) fneg.
Proof.
  intros x x' Hx. destruct x, x'; simpl in *; try tauto. now rewrite Hx.
Qed.

#[global] Instance fsub_proper : Proper (feq ==> feq ==> feq) fsub.
Proof. intros x x' Hx y y' Hy. unfold fsub. now rewrite Hx, Hy. Qed.

#[global] Instance fmul_proper : Proper (feq ==> feq ==> feq) fmul.
Proof.
  intros x x' Hx y y' Hy.
  destruct x, x'; simpl in Hx; try tauto;
    destruct y, y'; simpl in Hy; try tauto; simpl; auto;
    try (now rewrite Hx, Hy);
    try (rewrite (Qsign_comp _ _ Hx); reflexivity);
    try (rewrite (Qsign_comp _ _ Hy); reflexivity).
Qed.

#[global] Instance fdiv_proper : Proper (feq ==> feq ==> feq) fdiv.
Proof.
  intros x x' Hx y y' Hy.
  destruct x, x'; simpl in Hx; try tauto;
    destruct y, y'; simpl in Hy; try tauto; simpl; auto with qarith;
    try (rewrite (Qsign_comp _ _ Hy); reflexivity).
  rewrite (Qsign_comp _ _ Hy), (Qsign_comp _ _ Hx).
  destruct (Qsign q2), (Qsign q0); simpl; auto; now rewrite Hx, Hy.
Qed.

#[global] Instance fabs_proper : Proper (feq ==> feq) fabs.
Proof.
  intros x x' Hx. destruct x, x'; simpl in *; try tauto. now rewrite Hx.
Qed.

#[global] Instance fgt_proper : Proper (feq ==> feq ==> eq) fgt.
Proof.
  intros x x' Hx y y' Hy.
  destruct x, x'; simpl in Hx; try tauto;
    destruct y, y'; simpl in Hy; try tauto; simpl; auto.
  now rewrite Hx, Hy.
Qed.

Lemma fadd_0_l (x : float64) : (Fin 0 + x == x)%fl.
Proof. destruct x; simpl; auto. ring. Qed.

Lemma fadd_comm (x y : float64) : (x + y == y + x)%fl.
Proof. destruct x, y; simpl; auto. ring. Qed.

Lemma fadd_assoc (x y z : float64) : (x + (y + z) == (x + y) + z)%fl.
Proof. destruct x, y, z; simpl; auto. ring. Qed.

Lemma fadd_nan_r (x : float64) : (x + NaN)%fl = NaN.
Proof. now destruct x. Qed.

(** A sum that meets a [nan] is [nan], wherever it started. *)
Lemma fold_fadd_nan (l : list float64) : fold_left fadd l NaN = NaN.
Proof. induction l as [|x l IH]; simpl; auto. Qed.

Lemma fold_fadd_In_nan (l : list float64) (a : float64) :
  In NaN l -> fold_left fadd l a = NaN.
Proof.
  revert a. induction l as [|x l IH]; simpl; intros a H; [tauto|].
  destruct H as [->|H]; [|now apply IH].
  rewrite fadd_nan_r. apply fold_fadd_nan.
Qed.

Lemma fold_fadd_proper (l : list float64) (a b : float64) :
  (a == b)%fl -> (fold_left fadd l a == fold_left fadd l b)%fl.
Proof.
  revert a b. induction l as [|y l IH]; simpl; intros a b H; auto.
  apply IH. now rewrite H.
Qed.

Lemma fold_fadd_shift (l : list float64) (a b : float64) :
  (fold_left fadd l (a + b) == a + fold_left fadd l b)%fl.
Proof.
  revert b. induction l as [|x l IH]; simpl; intros b; [reflexivity|].
  rewrite <- IH. apply fold_fadd_proper. symmetry. apply fadd_assoc.
Qed.

Lemma fsum_cons (x : float64) (l : list float64) :
  (fsum (x :: l) == x + fsum l)%fl.
Proof.
  unfold fsum. simpl.
  rewrite (fold_fadd_proper l (Fin 0 + x)%fl (x + Fin 0)%fl (fadd_comm _ _)).
  apply fold_fadd_shift.
Qed.

End FloatFacts.

(** ** The likelihood evaluator is the Binomial mass *)

Section Likelihood.

Lemma comb_gt (n k : nat) : (n < k)%nat -> comb n k = 0%nat.
Proof.
  revert k. induction n as [|n IH]; intros [|k] Hk; simpl; try lia.
  rewrite !IH by lia. reflexivity.
Qed.

Lemma comb_fact (n k : nat) :
  (k <= n)%nat -> (comb n k * (fact k * fact (n - k)) = fact n)%nat.
Proof.
  revert k. induction n as [|n IH]; intros [|k] Hk; try lia.
  - reflexivity.
  - simpl comb. rewrite Nat.sub_0_r. simpl fact at 1. lia.
  - change (comb (S n) (S k)) with (comb n k + comb n (S k))%nat.
    replace (S n - S k)%nat with (n - k)%nat by lia.
    destruct (Nat.eq_dec k n) as [->|Hne].
    + rewrite (comb_gt n (S n)) by lia.
      specialize (IH n (Nat.le_refl n)).
      rewrite Nat.sub_diag in *. change (fact 0) with 1%nat in *.
      change (fact (S n)) with (S n * fact n)%nat. nia.
    + pose proof (IH k ltac:(lia)) as H1.
      pose proof (IH (S k) ltac:(lia)) as H2.
      replace (n - k)%nat with (S (n - S k)) in * by lia.
      change (fact (S n)) with (S n * fact n)%nat.
      change (fact (S k)) with (S k * fact k)%nat in *.
      change (fact (S (n - S k))) with (S (n - S k) * fact (n - S k))%nat in *.
      assert (HS : S (n - S k) = (n - k)%nat) by lia.
      nia.
Qed.

Lemma comb_quotient (n k : nat) :
  (k <= n)%nat -> comb n k = (fact n / (fact k * fact (n - k)))%nat.
Proof.
  intros Hk. rewrite <- (comb_fact n k Hk).
  pose proof (lt_O_fact k). pose proof (lt_O_fact (n - k)).
  rewrite Nat.div_mul; [reflexivity | nia].
Qed.

Lemma fpow_Fin_nonneg (q : Q) (z : Z) :
  (0 <= z)%Z -> fpow (Fin q) z = Fin (q ^ z).
Proof. destruct z; simpl; intros Hz; try reflexivity. lia. Qed.

(** The Binomial mass as the specification writes it,
    [C(n,k) p^k (1-p)^(n-k)] with [C(n,k) = n! / (k! (n-k)!)]. *)
Definition spec_binomial_pmf (k n : nat) (p : Q) : Q :=
  inject_Z (Z.of_nat (fact n / (fact k * fact (n - k))))
  * p ^ Z.of_nat k * (1 - p) ^ Z.of_nat (n - k).

(** The value of the product, for a coefficient that fits a double: for
    [0 <= k <= n] and a probability [p] it is the Binomial probability
    mass [C(n,k) p^k (1-p)^(n-k)]; at [p = 0] with [k > 0] and at [p = 1]
    with [k < n] it is the number 0, not [nan]. *)
Lemma binomial_value (k n : nat) (p : Q) :
  (k <= n)%nat -> 0 <= p <= 1 ->
  compute_likelihood k n (Fin p) = Fin (spec_binomial_pmf k n p)
  /\ ((0 < k)%nat -> p == 0 -> (compute_likelihood k n (Fin p) == Fin 0)%fl)
  /\ ((k < n)%nat -> p == 1 -> (compute_likelihood k n (Fin p) == Fin 0)%fl).
Proof.
  intros Hk Hp.
  assert (E : compute_likelihood k n (Fin p) = Fin (spec_binomial_pmf k n p)).
  { unfold compute_likelihood, spec_binomial_pmf.
    rewrite fpow_Fin_nonneg by lia.
    change (Fin 1 - Fin p)%fl with (Fin (1 - p)).
    rewrite fpow_Fin_nonneg by lia.
    rewrite <- comb_quotient by exact Hk.
    replace (Z.of_nat n - Z.of_nat k)%Z with (Z.of_nat (n - k)) by lia.
    reflexivity. }
  split; [exact E|]. rewrite E. unfold spec_binomial_pmf. simpl feq.
  split; intros Hlt Hp0; rewrite Hp0.
  - rewrite Qpower_0 by lia. ring.
  - assert (H0 : 1 - 1 == 0) by ring. rewrite H0.
    rewrite Qpower_0 by lia. ring.
Qed.

End Likelihood.

(** ** The reference MLE *)

Module MLEFacts.
Import MLE.

(** Experiments for which coin A, respectively coin B, was selected. *)
Definition selected_A (d : draw) : Prop := fst d = 0%nat.
Definition selected_B (d : draw) : Prop := fst d <> 0%nat.

#[global] Instance selected_A_dec d : Decision (selected_A d).
Proof. unfold selected_A. apply _. Defined.
#[global] Instance selected_B_dec d : Decision (selected_B d).
Proof. unfold selected_B. apply _. Defined.

Definition heads_of (ds : list draw) : list nat := map snd ds.

(** The estimate as the specification writes it: total heads of the
    experiments of one coin over their total number of tosses. *)
Definition spec_mle (num_coin_toss : nat) (mine : list draw) : float64 :=
  Fin (inject_Z (Z.of_nat (sum_list (heads_of mine)))
       / inject_Z (Z.of_nat (length mine * num_coin_toss))).

Definition flag (d : draw) : nat := if (fst d =? 0)%nat then 0%nat else 1%nat.

Lemma gen_loop_coin_choice (ds : list draw) :
  forall (i : nat) (g : gen) (pre : list nat),
    length pre = i ->
    coin_choice g = pre ++ replicate (length ds) 0%nat ->
    coin_choice (gen_loop i ds g) = pre ++ map flag ds.
Proof.
  induction ds as [|d ds IH]; intros i g pre Hi Hg; simpl in *.
  - exact Hg.
  - replace (pre ++ flag d :: map flag ds)
      with ((pre ++ [flag d]) ++ map flag ds) by (now rewrite <- app_assoc).
    apply IH.
    + rewrite length_app. simpl. lia.
    + rewrite <- app_assoc. simpl. unfold gen_step, flag.
      destruct (fst d =? 0)%nat; simpl; rewrite Hg; [reflexivity|].
      subst i. rewrite insert_app_r_alt by lia.
      rewrite Nat.sub_diag. reflexivity.
Qed.

Lemma count_nonzero_flags (ds : list draw) :
  count_nonzero (map flag ds) = length (filter selected_B ds).
Proof.
  unfold count_nonzero.
  induction ds as [|d ds IH]; [reflexivity|].
  simpl map. rewrite !filter_cons.
  destruct (decide (flag d <> 0%nat)) as [F|F];
    destruct (decide (selected_B d)) as [B|B]; simpl; try (now rewrite IH).
  - exfalso. apply F. unfold flag, selected_B in *.
    destruct (Nat.eqb_spec (fst d) 0); [reflexivity | contradiction].
  - exfalso. apply F. unfold flag, selected_B in *.
    destruct (Nat.eqb_spec (fst d) 0); [contradiction | discriminate].
Qed.

Lemma length_selected (ds : list draw) :
  (length (filter selected_A ds) + length (filter selected_B ds))%nat = length ds.
Proof.
  induction ds as [|d ds IH]; [reflexivity|].
  rewrite !filter_cons. unfold selected_A at 1, selected_B at 1.
  destruct (decide (fst d = 0%nat)) as [E|E].
  - rewrite decide_False by (intros H; now apply H). simpl. lia.
  - rewrite decide_True by exact E. simpl. lia.
Qed.

(** The accumulator after adding the head counts [hs] one by one. *)
Definition accumulate (v : scalar) (hs : list nat) : scalar :=
  fold_left (fun v h => add_np v (of_nat h)) hs v.

Lemma gen_loop_MLE (ds : list draw) :
  forall (i : nat) (g : gen),
    MLE_A (gen_loop i ds g)
    = accumulate (MLE_A g) (heads_of (filter selected_A ds))
    /\ MLE_B (gen_loop i ds g)
       = accumulate (MLE_B g) (heads_of (filter selected_B ds)).
Proof.
  induction ds as [|d ds IH]; intros i g; simpl; [auto|].
  destruct (IH (S i) (gen_step i d g)) as [HA HB]. rewrite HA, HB.
  rewrite !filter_cons. unfold gen_step, selected_A at 2, selected_B at 2.
  destruct (Nat.eqb_spec (fst d) 0) as [E|E]; simpl.
  - rewrite decide_True by exact E.
    rewrite decide_False by (intros H; now apply H). auto.
  - rewrite decide_False by exact E.
    rewrite decide_True by exact E. auto.
Qed.

Lemma accumulate_np (x : float64) (hs : list nat) :
  exists y, accumulate (NpFloat x) hs = NpFloat y
            /\ (y == x + of_nat (sum_list hs))%fl.
Proof.
  revert x. induction hs as [|h hs IH]; intros x; simpl.
  - exists x. split; [reflexivity|].
    destruct x; simpl; auto. unfold inject_Z. simpl. ring.
  - destruct (IH (x + of_nat h)%fl) as (y & Hy & E).
    exists y. split; [exact Hy|]. rewrite E.
    rewrite <- fadd_assoc. apply fadd_proper; [reflexivity|].
    unfold of_nat, of_Z. simpl. rewrite Nat2Z.inj_add, inject_Z_plus.
    reflexivity.
Qed.

Lemma accumulate_zero (hs : list nat) :
  hs <> [] ->
  exists y, accumulate (PyFloat (Fin 0)) hs = NpFloat y
            /\ (y == of_nat (sum_list hs))%fl.
Proof.
  destruct hs as [|h hs]; [congruence|]. intros _. simpl.
  destruct (accumulate_np (Fin 0 + of_nat h)%fl hs) as (y & Hy & E).
  exists y. split; [exact Hy|]. rewrite E.
  unfold of_nat, of_Z. simpl. rewrite Nat2Z.inj_add, inject_Z_plus.
  apply Qplus_comp; [ring | reflexivity].
Qed.

Lemma mle_state (ds : list draw) :
  let g := gen_loop 0 ds (gen_init (length ds)) in
  count_nonzero (coin_choice g) = length (filter selected_B ds)
  /\ MLE_A g = accumulate (PyFloat (Fin 0)) (heads_of (filter selected_A ds))
  /\ MLE_B g = accumulate (PyFloat (Fin 0)) (heads_of (filter selected_B ds)).
Proof.
  intros g. split.
  - unfold g. rewrite (gen_loop_coin_choice ds 0 _ []); try reflexivity.
    apply count_nonzero_flags.
  - apply (gen_loop_MLE ds 0 (gen_init (length ds))).
Qed.

Lemma np_ratio (y : float64) (s d : nat) :
  (0 < d)%nat -> (y == of_nat s)%fl ->
  (y / of_Z (Z.of_nat d) == Fin (inject_Z (Z.of_nat s) / inject_Z (Z.of_nat d)))%fl.
Proof.
  intros Hd Hy. rewrite Hy. unfold of_nat, of_Z. simpl.
  assert (H : 0 < inject_Z (Z.of_nat d)).
  { unfold Qlt. simpl. lia. }
  apply Qsign_Lt in H. rewrite H. simpl. reflexivity.
Qed.

Lemma heads_of_nil (ds : list draw) : heads_of ds = [] -> ds = [].
Proof. destruct ds; [reflexivity | discriminate]. Qed.

(** The labelled data set of the specification's example: three
    experiments of coin A with 9, 8 and 7 heads, two of coin B with 1 and
    2 heads. *)
Definition example_draws : list draw :=
  [(0, 9); (0, 8); (0, 7); (1, 1); (1, 2)]%nat.

(** C6.  When both coins were selected at least once, the two estimates
    are numpy scalars equal to the total heads of the experiments of the
    coin over the total number of their tosses; on the example data set
    with ten tosses per experiment they are 0.8 and 0.15. *)
Theorem compute_mle_ratio :
  (forall (num_coin_toss : nat) (ds : list draw),
      (0 < num_coin_toss)%nat ->
      filter selected_A ds <> [] ->
      filter selected_B ds <> [] ->
      exists a b,
        compute_mle num_coin_toss ds = Returns (NpFloat a, NpFloat b)
        /\ (a == spec_mle num_coin_toss (filter selected_A ds))%fl
        /\ (b == spec_mle num_coin_toss (filter selected_B ds))%fl)
  /\ (exists a b,
        compute_mle 10 example_draws = Returns (NpFloat a, NpFloat b)
        /\ (a == Fin (8 # 10))%fl /\ (b == Fin (15 # 100))%fl).
Proof.
  split.
  - intros n ds Hn HA HB.
    destruct (mle_state ds) as (Hc & EA & EB).
    unfold compute_mle. rewrite Hc, EA, EB.
    destruct (accumulate_zero (heads_of (filter selected_A ds))) as (ya & Ea & Ha).
    { intros H. apply HA. now apply heads_of_nil. }
    destruct (accumulate_zero (heads_of (filter selected_B ds))) as (yb & Eb & Hb).
    { intros H. apply HB. now apply heads_of_nil. }
    rewrite Ea, Eb. simpl.
    eexists _, _. split; [reflexivity|].
    pose proof (length_selected ds) as Hlen.
    assert (LA : (0 < length (filter selected_A ds))%nat).
    { destruct (filter selected_A ds); [congruence | simpl; lia]. }
    assert (LB : (0 < length (filter selected_B ds))%nat).
    { destruct (filter selected_B ds); [congruence | simpl; lia]. }
    unfold spec_mle. split.
    + replace ((Z.of_nat (length ds) - Z.of_nat (length (filter selected_B ds)))
               * Z.of_nat n)%Z
        with (Z.of_nat (length (filter selected_A ds) * n)) by lia.
      apply np_ratio; [nia | exact Ha].
    + rewrite <- Nat2Z.inj_mul. apply np_ratio; [nia | exact Hb].
  - eexists _, _. split; [vm_compute; reflexivity|]. split; reflexivity.
Qed.

Lemma compute_mle_ratio_witness :
  exists a b,
    compute_mle 10 example_draws = Returns (NpFloat a, NpFloat b)
    /\ (a == spec_mle 10 (filter selected_A example_draws))%fl
    /\ (b == spec_mle 10 (filter selected_B example_draws))%fl.
Proof.
  apply (proj1 compute_mle_ratio 10%nat example_draws).
  - lia.
  - vm_compute. discriminate.
  - vm_compute. discriminate.
Defined.

(** C7.  When one of the coins was never selected, its accumulator is
    still the Python float [0.0] and its divisor the Python int [0]: the
    normalising division raises [ZeroDivisionError], and no estimate,
    [nan] or infinite, is produced. *)
Theorem compute_mle_unselected (num_coin_toss : nat) (ds : list draw) :
  filter selected_A ds = [] \/ filter selected_B ds = [] ->
  compute_mle num_coin_toss ds = Raises ZeroDivisionError.
Proof.
  intros H.
  destruct (mle_state ds) as (Hc & EA & EB).
  pose proof (length_selected ds) as Hlen.
  unfold compute_mle. rewrite Hc, EA, EB.
  destruct (filter selected_A ds) as [|dA restA] eqn:FA.
  - simpl in *.
    replace ((Z.of_nat (length ds) - Z.of_nat (length (filter selected_B ds)))
             * Z.of_nat num_coin_toss)%Z with 0%Z by lia.
    reflexivity.
  - destruct H as [H|H]; [discriminate|]. rewrite H.
    destruct (accumulate_zero (heads_of (dA :: restA))) as (ya & Ea & _);
      [discriminate|].
    rewrite Ea. simpl. reflexivity.
Qed.

Lemma compute_mle_unselected_witness :
  compute_mle 10 [(0, 9); (0, 8); (0, 7); (0, 6); (0, 9)]%nat
  = Raises ZeroDivisionError.
Proof.
  apply compute_mle_unselected. right. vm_compute. reflexivity.
Defined.

End MLEFacts.

(** ** One pass of the E-M loop *)

Module EMFacts.
Import EM.

Section Pass.

Variable num_coin_toss : nat.

(** The rows the [for] loop stores for the current parameters. *)
Definition rows_A (pA pB : float64) (exps : list (nat * Z)) : list row :=
  map (fun e => fst (e_step num_coin_toss pA pB (fst e) (snd e))) exps.

Definition rows_B (pA pB : float64) (exps : list (nat * Z)) : list row :=
  map (fun e => snd (e_step num_coin_toss pA pB (fst e) (snd e))) exps.

(** The value line 189 (line 190) stores, for a non-empty array of rows. *)
Definition m_step (e : list row) : float64 :=
  let s := fold_left row_add e (Fin 0, Fin 0) in
  (fst s / fsum [fst s; snd s])%fl.

Lemma e_steps_returns (pAs pBs : list float64) (jj : nat) (pA pB : float64)
      (exps : list (nat * Z)) :
  pAs !! jj = Some pA -> pBs !! jj = Some pB ->
  e_steps num_coin_toss pAs pBs jj exps
  = Returns (rows_A pA pB exps, rows_B pA pB exps).
Proof.
  intros HA HB. induction exps as [|[eH eT] exps IH]; simpl; [reflexivity|].
  unfold getitem. rewrite HA, HB. simpl. rewrite IH. reflexivity.
Qed.

Lemma py_theta_returns (e : list row) :
  e <> [] -> py_theta e = Returns (m_step e).
Proof. destruct e; [congruence | reflexivity]. Qed.

(** The state one pass leads to, when nothing raises. *)
Definition next (s : state) (pA pB : float64) : state :=
  let exps := zip (head_counts s) (tail_counts s) in
  let a := m_step (rows_A pA pB exps) in
  let b := m_step (rows_B pA pB exps) in
  {| head_counts := head_counts s;
     tail_counts := tail_counts s;
     pA_heads := <[(j s + 1)%nat := a]> (pA_heads s);
     pB_heads := <[(j s + 1)%nat := b]> (pB_heads s);
     j := j s + 1;
     improvement := max2 (fabs (a - pA)) (fabs (b - pB));
     theta_A := Some (np_theta (rows_A pA pB exps));
     theta_B := Some (np_theta (rows_B pA pB exps)) |}%fl.

(** The arrays have their hundred slots and the counter points into
    them. *)
Definition wf (s : state) : Prop :=
  length (pA_heads s) = trace_len /\ length (pB_heads s) = trace_len
  /\ (j s < trace_len)%nat.

Lemma wf_lookup (s : state) :
  wf s -> exists pA pB, pA_heads s !! j s = Some pA /\ pB_heads s !! j s = Some pB.
Proof.
  intros (HA & HB & Hj).
  destruct (lookup_lt_is_Some_2 (pA_heads s) (j s)) as [pA EA]; [lia|].
  destruct (lookup_lt_is_Some_2 (pB_heads s) (j s)) as [pB EB]; [lia|].
  eauto.
Qed.

Lemma iteration_returns (s : state) (pA pB : float64) :
  wf s -> (j s + 1 < trace_len)%nat ->
  pA_heads s !! j s = Some pA -> pB_heads s !! j s = Some pB ->
  zip (head_counts s) (tail_counts s) <> [] ->
  iteration num_coin_toss s = Returns (next s pA pB).
Proof.
  intros (LA & LB & Hj) Hj1 EA EB Hne. unfold iteration.
  rewrite (e_steps_returns _ _ _ pA pB) by assumption. simpl.
  assert (NA : rows_A pA pB (zip (head_counts s) (tail_counts s)) <> []).
  { unfold rows_A. destruct (zip _ _); [congruence | discriminate]. }
  assert (NB : rows_B pA pB (zip (head_counts s) (tail_counts s)) <> []).
  { unfold rows_B. destruct (zip _ _); [congruence | discriminate]. }
  rewrite !py_theta_returns by assumption. simpl.
  unfold setitem. rewrite !decide_True by lia. simpl.
  unfold getitem.
  rewrite !list_lookup_insert_eq by lia.
  rewrite !list_lookup_insert_ne by lia.
  rewrite EA, EB. simpl. reflexivity.
Qed.

Lemma iteration_cap (s : state) :
  wf s -> (j s + 1 = trace_len)%nat ->
  zip (head_counts s) (tail_counts s) <> [] ->
  iteration num_coin_toss s = Raises IndexError.
Proof.
  intros Hwf Hj1 Hne. destruct (wf_lookup s Hwf) as (pA & pB & EA & EB).
  destruct Hwf as (LA & LB & Hj). unfold iteration.
  rewrite (e_steps_returns _ _ _ pA pB) by assumption. simpl.
  assert (NA : rows_A pA pB (zip (head_counts s) (tail_counts s)) <> []).
  { unfold rows_A. destruct (zip _ _); [congruence | discriminate]. }
  rewrite !py_theta_returns by assumption. simpl.
  unfold setitem. rewrite decide_False by lia. reflexivity.
Qed.

Lemma iteration_empty (s : state) :
  wf s -> zip (head_counts s) (tail_counts s) = [] ->
  iteration num_coin_toss s = Raises TypeError.
Proof.
  intros _ He. unfold iteration. rewrite He. reflexivity.
Qed.

Lemma next_wf (s : state) (pA pB : float64) :
  wf s -> (j s + 1 < trace_len)%nat -> wf (next s pA pB).
Proof.
  intros (LA & LB & Hj) Hj1. unfold wf, next. simpl.
  rewrite !length_insert. auto.
Qed.

Lemma init_wf (heads : list nat) (pA0 pB0 : float64) :
  wf (init num_coin_toss heads pA0 pB0).
Proof.
  unfold wf, init, trace_len. simpl. repeat split; lia.
Qed.

Lemma init_nonempty (heads : list nat) (pA0 pB0 : float64) :
  heads <> [] ->
  let s := init num_coin_toss heads pA0 pB0 in
  zip (head_counts s) (tail_counts s) <> [].
Proof. destruct heads; [congruence | discriminate]. Qed.

(** A pass only reads the data set. *)
Lemma iteration_frame (s s' : state) :
  iteration num_coin_toss s = Returns s' ->
  head_counts s' = head_counts s /\ tail_counts s' = tail_counts s.
Proof.
  unfold iteration.
  destruct (e_steps _ _ _ _ _) as [es| |]; simpl; try discriminate.
  destruct (py_theta (fst es)) as [a| |]; simpl; try discriminate.
  destruct (setitem (pA_heads s) _ a) as [pAs| |]; simpl; try discriminate.
  destruct (py_theta (snd es)) as [b| |]; simpl; try discriminate.
  destruct (setitem (pB_heads s) _ b) as [pBs| |]; simpl; try discriminate.
  destruct (getitem pAs (j s + 1)); simpl; try discriminate.
  destruct (getitem pBs (j s + 1)); simpl; try discriminate.
  destruct (getitem pAs (j s)); simpl; try discriminate.
  destruct (getitem pBs (j s)); simpl; try discriminate.
  intros [= <-]. simpl. auto.
Qed.

Variable epsilon : Q.

Lemma loop_frame (fuel : nat) :
  forall s s' : state,
    loop num_coin_toss epsilon fuel s = Returns s' ->
    head_counts s' = head_counts s /\ tail_counts s' = tail_counts s.
Proof.
  induction fuel as [|fuel IH]; intros s s'; simpl;
    destruct (fgt (improvement s) (Fin epsilon)); try discriminate;
    try (intros [= <-]; now auto).
  destruct (iteration num_coin_toss s) as [s1| |] eqn:E1; simpl; try discriminate.
  intros H. apply IH in H. apply iteration_frame in E1.
  destruct H as [-> ->]. exact E1.
Qed.

Lemma loop_stop (fuel : nat) (s : state) :
  fgt (improvement s) (Fin epsilon) = false ->
  loop num_coin_toss epsilon fuel s = Returns s.
Proof. intros H. destruct fuel; simpl; now rewrite H. Qed.


(** Why the loop stopped: the test [improvement > epsilon] is false when
    the improvement is at most [epsilon], and also when it is [nan]. *)
Definition below_threshold (s : state) : Prop :=
  exists q, improvement s = Fin q /\ q <= epsilon.

Definition stopped (s : state) : Prop :=
  below_threshold s \/ improvement s = NaN.

Lemma fgt_false_cases (x : float64) :
  fgt x (Fin epsilon) = false -> x <> NInf ->
  (exists q, x = Fin q /\ q <= epsilon) \/ x = NaN.
Proof.
  destruct x as [q| | |]; simpl; intros H Hn; try congruence; auto.
  left. exists q. split; [reflexivity|].
  destruct (epsilon ?= q) eqn:E; try discriminate.
  - apply Qeq_alt in E. rewrite E. apply Qle_refl.
  - apply Qgt_alt in E. now apply Qlt_le_weak.
Qed.

Lemma fabs_not_NInf (x : float64) : fabs x <> NInf.
Proof. destruct x; discriminate. Qed.

Lemma max2_fabs_not_NInf (x y : float64) : max2 (fabs x) (fabs y) <> NInf.
Proof. unfold max2. destruct (fgt _ _); apply fabs_not_NInf. Qed.

(** [passes k s s']: from [s], [k] passes of the loop body, each entered
    with the test true, lead to [s']. *)
Inductive passes : nat -> state -> state -> Prop :=
| passes_O (s : state) : passes 0 s s
| passes_S (k : nat) (s s1 s2 : state) :
    fgt (improvement s) (Fin epsilon) = true ->
    iteration num_coin_toss s = Returns s1 ->
    passes k s1 s2 ->
    passes (S k) s s2.

(** The loop was entered a hundredth time and its body raised. *)
Definition hits_cap (s0 : state) : Prop :=
  exists k s, passes k s0 s /\ j s = (j s0 + k)%nat
              /\ (j s + 1 = trace_len)%nat
              /\ fgt (improvement s) (Fin epsilon) = true
              /\ iteration num_coin_toss s = Raises IndexError.

Lemma loop_outcome (fuel : nat) :
  forall s : state,
    wf s -> zip (head_counts s) (tail_counts s) <> [] ->
    improvement s <> NInf ->
    (trace_len <= j s + fuel)%nat ->
    (exists k s', loop num_coin_toss epsilon fuel s = Returns s'
                  /\ passes k s s' /\ j s' = (j s + k)%nat
                  /\ (j s' < trace_len)%nat /\ stopped s'
                  /\ (fgt (improvement s) (Fin epsilon) = true -> (0 < k)%nat))
    \/ (loop num_coin_toss epsilon fuel s = Raises IndexError /\ hits_cap s).
Proof.
  induction fuel as [|fuel IH]; intros s Hwf Hne Himp Hfuel; simpl;
    destruct (fgt (improvement s) (Fin epsilon)) eqn:Etest.
  - destruct Hwf as (_ & _ & Hj). lia.
  - destruct Hwf as (_ & _ & Hj). lia.
  - destruct (wf_lookup s Hwf) as (pA & pB & EA & EB).
    destruct (Nat.lt_ge_cases (j s + 1) trace_len) as [Hlt|Hge].
    + pose proof (iteration_returns s pA pB Hwf Hlt EA EB Hne) as Eit.
      rewrite Eit. simpl.
      destruct (IH (next s pA pB))
        as [(k & s' & E & Hp & Hj & Hlt' & Hstop & _)|(E & k & s' & Hp & Hj & Hc)].
      * now apply next_wf.
      * exact Hne.
      * apply max2_fabs_not_NInf.
      * simpl. lia.
      * left. exists (S k), s'. simpl in Hj.
        repeat split; auto; try lia.
        now apply (passes_S k s (next s pA pB) s').
      * right. split; [exact E|]. exists (S k), s'. simpl in Hj.
        split; [now apply (passes_S k s (next s pA pB) s')|].
        split; [lia | exact Hc].
    + assert (Hj1 : (j s + 1 = trace_len)%nat).
      { destruct Hwf as (_ & _ & Hj). lia. }
      pose proof (iteration_cap s Hwf Hj1 Hne) as Eit.
      right. rewrite Eit. split; [reflexivity|].
      exists 0%nat, s. split; [constructor|].
      split; [lia|]. split; [exact Hj1|]. split; [exact Etest | exact Eit].
  - left. exists 0%nat, s. destruct Hwf as (_ & _ & Hj).
    split; [reflexivity|]. split; [constructor|].
    split; [lia|]. split; [lia|]. split; [|discriminate].
    now apply fgt_false_cases.
Qed.

End Pass.

(** What the specification calls convergence: the run returns with an
    improvement at most [epsilon]. *)
Definition converged (epsilon : Q) (o : outcome state) : Prop :=
  exists s, o = Returns s /\ below_threshold epsilon s.

Lemma passes_frame (num_coin_toss : nat) (epsilon : Q) (k : nat) (s s' : state) :
  passes num_coin_toss epsilon k s s' ->
  head_counts s' = head_counts s /\ tail_counts s' = tail_counts s.
Proof.
  induction 1 as [s|k s s1 s2 _ Eit _ IH]; [auto|].
  apply iteration_frame in Eit. destruct IH as [-> ->]. exact Eit.
Qed.

(** C10.  The loop only reads [head_counts] and [tail_counts]: after any
    number of passes, and after a run that returns, they are the arrays
    built before the loop. *)
Theorem run_em_frame (num_coin_toss : nat) (epsilon : Q)
        (heads : list nat) (pA0 pB0 : float64) :
  let s0 := init num_coin_toss heads pA0 pB0 in
  let unchanged (s : state) :=
    head_counts s = heads
    /\ tail_counts s
       = map (fun h => (Z.of_nat num_coin_toss - Z.of_nat h)%Z) heads in
  (forall k s, passes num_coin_toss epsilon k s0 s -> unchanged s)
  /\ (forall s, run_em num_coin_toss epsilon heads pA0 pB0 = Returns s ->
                unchanged s).
Proof.
  intros s0 unchanged. split.
  - intros k s H. apply passes_frame in H. exact H.
  - unfold run_em. intros s H. apply loop_frame in H. exact H.
Qed.

Lemma run_em_frame_witness :
  exists s,
    run_em 10 (1 # 1000) [5; 5; 5; 5; 5]%nat (Fin (1 # 2)) (Fin (1 # 2)) = Returns s
    /\ head_counts s = [5; 5; 5; 5; 5]%nat
    /\ tail_counts s = [5; 5; 5; 5; 5]%Z.
Proof.
  assert (E : exists s,
             run_em 10 (1 # 1000) [5; 5; 5; 5; 5]%nat (Fin (1 # 2)) (Fin (1 # 2))
             = Returns s).
  { vm_compute. eexists. reflexivity. }
  destruct E as [s E]. exists s. split; [exact E|].
  exact (proj2 (run_em_frame _ _ _ _ _) s E).
Defined.

End EMFacts.

(** ** The M-step is the ratio of expected counts *)

Module MStep.
Import EM EMFacts.

Section Ratio.

Variable num_coin_toss : nat.

(** The responsibilities and the expected counts as the specification
    writes them, for current parameters [pA], [pB] and experiments
    [(heads_i, tails_i)]. *)
Definition spec_weight_A (pA pB : float64) (h : nat) : float64 :=
  (compute_likelihood h num_coin_toss pA
   / (compute_likelihood h num_coin_toss pA
      + compute_likelihood h num_coin_toss pB))%fl.

Definition spec_weight_B (pA pB : float64) (h : nat) : float64 :=
  (compute_likelihood h num_coin_toss pB
   / (compute_likelihood h num_coin_toss pA
      + compute_likelihood h num_coin_toss pB))%fl.

Definition spec_expHeads (w : nat -> float64) (exps : list (nat * Z)) : float64 :=
  fsum (map (fun e => w (fst e) * of_nat (fst e))%fl exps).

Definition spec_expTails (w : nat -> float64) (exps : list (nat * Z)) : float64 :=
  fsum (map (fun e => w (fst e) * of_Z (snd e))%fl exps).

Definition spec_theta_new (w : nat -> float64) (exps : list (nat * Z)) : float64 :=
  (spec_expHeads w exps / (spec_expHeads w exps + spec_expTails w exps))%fl.

Lemma fold_row_add (e : list row) (a b : float64) :
  fold_left row_add e (a, b)
  = (fold_left fadd (map fst e) a, fold_left fadd (map snd e) b).
Proof.
  revert a b. induction e as [|r e IH]; intros a b; simpl; [reflexivity|].
  unfold row_add at 2. simpl. apply IH.
Qed.

Lemma fsum_pair (x y : float64) : (fsum [x; y] == x + y)%fl.
Proof. unfold fsum. cbn [fold_left]. now rewrite fadd_0_l. Qed.

Lemma m_step_ratio (e : list row) :
  (m_step e
   == fsum (map fst e) / (fsum (map fst e) + fsum (map snd e)))%fl.
Proof.
  unfold m_step. rewrite fold_row_add. simpl fst. simpl snd.
  rewrite fsum_pair. reflexivity.
Qed.

Lemma fadd_interchange (x y f s : float64) :
  (x + (y + (f + s)) == (x + f) + (y + s))%fl.
Proof. destruct x, y, f, s; simpl; auto. ring. Qed.

Lemma fsum_flat (e : list row) :
  (fsum (flat_map (fun r => [fst r; snd r]) e)
   == fsum (map fst e) + fsum (map snd e))%fl.
Proof.
  induction e as [|r e IH]; simpl.
  - reflexivity.
  - rewrite !fsum_cons, IH. apply fadd_interchange.
Qed.

Lemma np_theta_ratio (e : list row) :
  (np_theta e
   == fsum (map fst e) / (fsum (map fst e) + fsum (map snd e)))%fl.
Proof. unfold np_theta. now rewrite fsum_flat. Qed.

Lemma rows_A_heads (pA pB : float64) (exps : list (nat * Z)) :
  fsum (map fst (rows_A num_coin_toss pA pB exps))
  = spec_expHeads (spec_weight_A pA pB) exps
  /\ fsum (map snd (rows_A num_coin_toss pA pB exps))
     = spec_expTails (spec_weight_A pA pB) exps.
Proof.
  unfold rows_A, spec_expHeads, spec_expTails. rewrite !map_map. split; reflexivity.
Qed.

Lemma rows_B_heads (pA pB : float64) (exps : list (nat * Z)) :
  fsum (map fst (rows_B num_coin_toss pA pB exps))
  = spec_expHeads (spec_weight_B pA pB) exps
  /\ fsum (map snd (rows_B num_coin_toss pA pB exps))
     = spec_expTails (spec_weight_B pA pB) exps.
Proof.
  unfold rows_B, spec_expHeads, spec_expTails. rewrite !map_map. split; reflexivity.
Qed.

(** What one pass stores, up to equality of rationals. *)
Definition stores (s' : state) (k : nat) (a b : float64) : Prop :=
  exists a1 b1 a2 b2,
    pA_heads s' !! k = Some a1 /\ pB_heads s' !! k = Some b1
    /\ theta_A s' = Some a2 /\ theta_B s' = Some b2
    /\ (a1 == a)%fl /\ (b1 == b)%fl /\ (a2 == a)%fl /\ (b2 == b)%fl.

(** C3.  In every pass that completes, the values stored in
    [pA_heads[j+1]] and [pB_heads[j+1]] (and the [theta_A], [theta_B] of
    that pass) are [expHeads / (expHeads + expTails)] of the coin, where
    [expHeads] and [expTails] are the sums over the experiments of the
    coin's responsibility times the heads, respectively the tails. *)
Theorem m_step_expected_counts (s : state) (pA pB : float64) :
  wf s -> (j s + 1 < trace_len)%nat ->
  pA_heads s !! j s = Some pA -> pB_heads s !! j s = Some pB ->
  zip (head_counts s) (tail_counts s) <> [] ->
  let exps := zip (head_counts s) (tail_counts s) in
  exists s',
    iteration num_coin_toss s = Returns s'
    /\ stores s' (j s + 1)
         (spec_theta_new (spec_weight_A pA pB) exps)
         (spec_theta_new (spec_weight_B pA pB) exps).
Proof.
  intros Hwf Hj EA EB Hne exps.
  exists (next num_coin_toss s pA pB).
  split; [now apply iteration_returns|].
  destruct Hwf as (LA & LB & _).
  unfold stores, next. simpl.
  eexists _, _, _, _.
  rewrite !list_lookup_insert_eq by lia.
  repeat (split; [reflexivity|]).
  fold exps. unfold spec_theta_new.
  destruct (rows_A_heads pA pB exps) as [<- <-].
  destruct (rows_B_heads pA pB exps) as [<- <-].
  repeat split;
    first [apply m_step_ratio | apply np_theta_ratio].
Qed.

End Ratio.

Lemma m_step_expected_counts_witness :
  let s := init 10 [5; 5]%nat (Fin (1 # 2)) (Fin (1 # 2)) in
  exists s',
    iteration 10 s = Returns s'
    /\ stores s' 1
         (spec_theta_new (spec_weight_A 10 (Fin (1 # 2)) (Fin (1 # 2)))
                         [(5%nat, 5%Z); (5%nat, 5%Z)])
         (spec_theta_new (spec_weight_B 10 (Fin (1 # 2)) (Fin (1 # 2)))
                         [(5%nat, 5%Z); (5%nat, 5%Z)]).
Proof.
  intros s.
  apply (m_step_expected_counts 10 s (Fin (1 # 2)) (Fin (1 # 2))).
  - apply init_wf.
  - unfold trace_len. simpl. lia.
  - reflexivity.
  - reflexivity.
  - discriminate.
Defined.

End MStep.

(** ** A zero likelihood under both coins *)

Module Degenerate.
Import EM EMFacts MStep.

Section NaN.

Variable num_coin_toss : nat.
Variable epsilon : Q.

Lemma weight_zero_zero (lA lB : float64) :
  (lA == Fin 0)%fl -> (lB == Fin 0)%fl ->
  weightA lA lB = NaN /\ weightB lA lB = NaN.
Proof.
  destruct lA as [a| | |], lB as [b| | |]; simpl; try tauto.
  intros Ha Hb. unfold weightA, weightB. simpl.
  assert (Hab : a + b == 0) by (rewrite Ha, Hb; reflexivity).
  apply Qsign_Eq in Hab. apply Qsign_Eq in Ha. apply Qsign_Eq in Hb.
  now rewrite Hab, Ha, Hb.
Qed.



Lemma m_step_nan (e : list row) : In NaN (map fst e) -> m_step e = NaN.
Proof.
  intros H. unfold m_step. rewrite fold_row_add. simpl fst.
  now rewrite (fold_fadd_In_nan _ _ H).
Qed.


Lemma rows_nan (pA pB : float64) (exps : list (nat * Z)) (h : nat) (t : Z) :
  In (h, t) exps ->
  (compute_likelihood h num_coin_toss pA == Fin 0)%fl ->
  (compute_likelihood h num_coin_toss pB == Fin 0)%fl ->
  In NaN (map fst (rows_A num_coin_toss pA pB exps))
  /\ In NaN (map fst (rows_B num_coin_toss pA pB exps)).
Proof.
  intros Hin HA HB.
  destruct (weight_zero_zero _ _ HA HB) as [WA WB].
  unfold rows_A, rows_B. rewrite !map_map. split.
  - apply in_map_iff. exists (h, t). split; [|exact Hin].
    unfold e_step. simpl. now rewrite WA.
  - apply in_map_iff. exists (h, t). split; [|exact Hin].
    unfold e_step. simpl. now rewrite WB.
Qed.



End NaN.


End Degenerate.

(** ** A pass on rational parameters *)

Module Rational.
Import EM EMFacts MStep.

(** A [Forall] follows from a stronger one, pointwise by propositional
    reasoning. *)
Ltac weaken H :=
  eapply List.Forall_impl; [|exact H]; cbn beta; intros; tauto.

Section Pass.

Variable num_coin_toss : nat.

(** The likelihood of [h] heads under a rational parameter [p]. *)
Definition lik (h : nat) (p : Q) : Q :=
  inject_Z (Z.of_nat (comb num_coin_toss h)) * p ^ Z.of_nat h
  * (1 - p) ^ (Z.of_nat num_coin_toss - Z.of_nat h).

Lemma compute_likelihood_Fin (h : nat) (p : Q) :
  (h <= num_coin_toss)%nat ->
  compute_likelihood h num_coin_toss (Fin p) = Fin (lik h p).
Proof.
  intros Hh. unfold compute_likelihood, lik.
  rewrite fpow_Fin_nonneg by lia.
  change (Fin 1 - Fin p)%fl with (Fin (1 - p)).
  rewrite fpow_Fin_nonneg by lia. reflexivity.
Qed.

Lemma comb_pos (h : nat) : (h <= num_coin_toss)%nat -> (0 < comb num_coin_toss h)%nat.
Proof.
  intros Hh. pose proof (comb_fact num_coin_toss h Hh) as E.
  pose proof (lt_O_fact num_coin_toss). nia.
Qed.

Lemma inject_nat_nonneg (k : nat) : 0 <= inject_Z (Z.of_nat k).
Proof. unfold Qle. simpl. lia. Qed.

Lemma inject_nat_pos (k : nat) : (0 < k)%nat -> 0 < inject_Z (Z.of_nat k).
Proof. intros H. unfold Qlt. simpl. lia. Qed.

Lemma lik_nonneg (h : nat) (p : Q) :
  0 <= p <= 1 -> 0 <= lik h p.
Proof.
  intros [H0 H1]. unfold lik.
  repeat apply Qmult_le_0_compat.
  - apply inject_nat_nonneg.
  - now apply Qpower_0_le.
  - apply Qpower_0_le. lra.
Qed.

Lemma lik_pos (h : nat) (p : Q) :
  (h <= num_coin_toss)%nat -> 0 < p -> p < 1 -> 0 < lik h p.
Proof.
  intros Hh H0 H1. unfold lik.
  repeat apply Qmult_lt_0_compat.
  - apply inject_nat_pos. now apply comb_pos.
  - now apply Qpower_0_lt.
  - apply Qpower_0_lt. lra.
Qed.

Variables pa pb : Q.

(** The responsibilities, and the two entries of a row. *)
Definition wA (h : nat) : Q := lik h pa / (lik h pa + lik h pb).
Definition wB (h : nat) : Q := lik h pb / (lik h pa + lik h pb).

Definition tails (h : nat) : Z := (Z.of_nat num_coin_toss - Z.of_nat h)%Z.

Definition qrow (w : nat -> Q) (h : nat) : Q * Q :=
  (w h * inject_Z (Z.of_nat h), w h * inject_Z (tails h)).

Definition fin_row (r : Q * Q) : row := (Fin (fst r), Fin (snd r)).

(** The data set of a run: tails are the tosses that were not heads. *)
Definition experiments (hs : list nat) : list (nat * Z) :=
  zip hs (map tails hs).

Lemma experiments_map (hs : list nat) :
  experiments hs = map (fun h => (h, tails h)) hs.
Proof.
  unfold experiments. induction hs as [|h hs IH]; simpl; [reflexivity|].
  now rewrite IH.
Qed.

(** No experiment has likelihood 0 under both parameters. *)
Definition regular (hs : list nat) : Prop :=
  Forall (fun h => ~ lik h pa + lik h pb == 0) hs.

Definition in_range (hs : list nat) : Prop :=
  Forall (fun h => (h <= num_coin_toss)%nat) hs.

Lemma fdiv_Fin_nonzero (a d : Q) :
  ~ d == 0 -> (Fin a / Fin d)%fl = Fin (a / d).
Proof.
  intros Hd. simpl. destruct (Qsign d) eqn:E; try reflexivity.
  apply Qsign_Eq in E. contradiction.
Qed.

Lemma rows_Fin (hs : list nat) :
  in_range hs -> regular hs ->
  rows_A num_coin_toss (Fin pa) (Fin pb) (experiments hs)
  = map (fun h => fin_row (qrow wA h)) hs
  /\ rows_B num_coin_toss (Fin pa) (Fin pb) (experiments hs)
     = map (fun h => fin_row (qrow wB h)) hs.
Proof.
  intros Hr Hreg. rewrite experiments_map. unfold rows_A, rows_B.
  rewrite !map_map. split; apply map_ext_in; intros h Hin; simpl.
  all: unfold in_range, regular in *; rewrite List.Forall_forall in Hr, Hreg.
  all: specialize (Hr h Hin); specialize (Hreg h Hin).
  all: unfold e_step; rewrite !compute_likelihood_Fin by exact Hr.
  all: unfold weightA, weightB; change (Fin (lik h pa) + Fin (lik h pb))%fl
         with (Fin (lik h pa + lik h pb)).
  all: rewrite fdiv_Fin_nonzero by exact Hreg; reflexivity.
Qed.

Lemma fold_fadd_Fin (qs : list Q) (a : Q) :
  fold_left fadd (map Fin qs) (Fin a) = Fin (fold_left Qplus qs a).
Proof.
  revert a. induction qs as [|q qs IH]; intros a; simpl; [reflexivity|].
  apply IH.
Qed.

(** Sum of rationals, added from zero. *)
Definition Qsum (qs : list Q) : Q := fold_left Qplus qs 0.

Definition expH (w : nat -> Q) (hs : list nat) : Q :=
  Qsum (map (fun h => fst (qrow w h)) hs).
Definition expT (w : nat -> Q) (hs : list nat) : Q :=
  Qsum (map (fun h => snd (qrow w h)) hs).

Lemma m_step_Fin (w : nat -> Q) (hs : list nat) :
  m_step (map (fun h => fin_row (qrow w h)) hs)
  = (Fin (expH w hs) / Fin (0 + expH w hs + expT w hs))%fl.
Proof.
  unfold m_step. rewrite fold_row_add. rewrite !map_map.
  cbn [fst snd fin_row].
  rewrite <- (map_map (fun h => fst (qrow w h)) Fin).
  rewrite <- (map_map (fun h => snd (qrow w h)) Fin).
  rewrite !fold_fadd_Fin. reflexivity.
Qed.

Lemma fold_Qplus_shift (qs : list Q) (a : Q) :
  fold_left Qplus qs a == a + Qsum qs.
Proof.
  unfold Qsum. revert a. induction qs as [|q qs IH]; intros a; simpl.
  - ring.
  - rewrite (IH (a + q)), (IH (0 + q)). ring.
Qed.

Lemma Qsum_cons (q : Q) (qs : list Q) : Qsum (q :: qs) == q + Qsum qs.
Proof. unfold Qsum at 1. simpl. rewrite fold_Qplus_shift. ring. Qed.

Lemma Qsum_nonneg (qs : list Q) : Forall (fun q => 0 <= q) qs -> 0 <= Qsum qs.
Proof.
  induction 1 as [|q qs Hq _ IH]; [discriminate|].
  rewrite Qsum_cons. lra.
Qed.

Lemma Qsum_pos (qs : list Q) :
  Forall (fun q => 0 <= q) qs -> Exists (fun q => 0 < q) qs -> 0 < Qsum qs.
Proof.
  induction 1 as [|q qs Hq Hqs IH]; intros Hex; inversion Hex; subst;
    rewrite Qsum_cons.
  - pose proof (Qsum_nonneg qs Hqs). lra.
  - specialize (IH ltac:(assumption)). lra.
Qed.

Lemma tails_nonneg (h : nat) :
  (h <= num_coin_toss)%nat -> 0 <= inject_Z (tails h).
Proof. intros Hh. unfold tails, Qle. simpl. lia. Qed.

Lemma heads_tails (h : nat) :
  inject_Z (Z.of_nat h) + inject_Z (tails h)
  == inject_Z (Z.of_nat num_coin_toss).
Proof.
  unfold tails. rewrite <- inject_Z_plus.
  replace (Z.of_nat h + (Z.of_nat num_coin_toss - Z.of_nat h))%Z
    with (Z.of_nat num_coin_toss) by lia.
  reflexivity.
Qed.

(** Responsibilities of a regular experiment under probabilities. *)
Lemma weights_range (h : nat) :
  0 <= lik h pa -> 0 <= lik h pb -> ~ lik h pa + lik h pb == 0 ->
  0 <= wA h <= 1 /\ 0 <= wB h <= 1 /\ wA h + wB h == 1.
Proof.
  intros Ha Hb Hab. unfold wA, wB.
  assert (Hpos : 0 < lik h pa + lik h pb).
  { destruct (Qlt_le_dec 0 (lik h pa + lik h pb)) as [H|H]; [exact H|].
    exfalso. apply Hab. lra. }
  repeat split.
  - apply Qle_shift_div_l; [exact Hpos | lra].
  - apply Qle_shift_div_r; [exact Hpos | lra].
  - apply Qle_shift_div_l; [exact Hpos | lra].
  - apply Qle_shift_div_r; [exact Hpos | lra].
  - field. exact Hab.
Qed.

Lemma qrow_nonneg (w : nat -> Q) (h : nat) :
  (h <= num_coin_toss)%nat -> 0 <= w h ->
  0 <= fst (qrow w h) /\ 0 <= snd (qrow w h).
Proof.
  intros Hh Hw. unfold qrow. simpl. split; apply Qmult_le_0_compat; auto.
  - apply inject_nat_nonneg.
  - now apply tails_nonneg.
Qed.

Lemma expH_nonneg (w : nat -> Q) (hs : list nat) :
  in_range hs -> Forall (fun h => 0 <= w h) hs ->
  0 <= expH w hs /\ 0 <= expT w hs.
Proof.
  intros Hr Hw. unfold expH, expT.
  split; apply Qsum_nonneg; apply List.Forall_map;
    unfold in_range in Hr; rewrite List.Forall_forall in *;
    intros h Hin; now apply qrow_nonneg; auto.
Qed.

(** [expH + expT] is the number of tosses times the total weight. *)
Lemma expH_expT (w : nat -> Q) (hs : list nat) :
  expH w hs + expT w hs == inject_Z (Z.of_nat num_coin_toss) * Qsum (map w hs).
Proof.
  unfold expH, expT. induction hs as [|h hs IH]; cbn [map].
  - unfold Qsum. simpl. ring.
  - rewrite !Qsum_cons.
    set (X := Qsum (map (fun h0 => fst (qrow w h0)) hs)) in *.
    set (Y := Qsum (map (fun h0 => snd (qrow w h0)) hs)) in *.
    cbn [qrow fst snd].
    transitivity (w h * (inject_Z (Z.of_nat h) + inject_Z (tails h)) + (X + Y));
      [ring|].
    rewrite IH, (heads_tails h). ring.
Qed.

(** Every experiment has a positive likelihood under each parameter. *)
Definition positive (hs : list nat) : Prop :=
  Forall (fun h => 0 < lik h pa /\ 0 < lik h pb) hs.

Lemma interior_positive (hs : list nat) :
  in_range hs -> 0 < pa < 1 -> 0 < pb < 1 -> positive hs.
Proof.
  unfold in_range, positive. intros Hr [Ha0 Ha1] [Hb0 Hb1].
  rewrite List.Forall_forall in *. intros h Hin.
  split; apply lik_pos; auto.
Qed.

Lemma positive_regular (hs : list nat) : positive hs -> regular hs.
Proof.
  unfold positive, regular. rewrite !List.Forall_forall.
  intros H h Hin. destruct (H h Hin). lra.
Qed.

Lemma positive_weights (hs : list nat) :
  positive hs -> Forall (fun h => 0 < wA h /\ 0 < wB h) hs.
Proof.
  unfold positive. rewrite !List.Forall_forall.
  intros H h Hin. destruct (H h Hin) as [Ha Hb]. unfold wA, wB.
  split; apply Qlt_shift_div_l; lra.
Qed.

Lemma total_weight_pos (w : nat -> Q) (hs : list nat) :
  hs <> [] -> Forall (fun h => 0 < w h) hs -> 0 < Qsum (map w hs).
Proof.
  intros Hne Hw. apply Qsum_pos.
  - apply List.Forall_map. eapply List.Forall_impl; [|exact Hw].
    intros h Hh. simpl in Hh. lra.
  - destruct hs as [|h hs]; [congruence|].
    simpl. apply List.Exists_cons_hd. now inversion Hw.
Qed.

(** With positive weights on a non-empty data set the denominator of the
    M-step is positive. *)
Lemma denominator_pos (w : nat -> Q) (hs : list nat) :
  (0 < num_coin_toss)%nat -> hs <> [] -> Forall (fun h => 0 < w h) hs ->
  0 < expH w hs + expT w hs.
Proof.
  intros Hn Hne Hw. rewrite expH_expT.
  apply Qmult_lt_0_compat.
  - now apply inject_nat_pos.
  - now apply total_weight_pos.
Qed.

End Pass.

(** A probability, and what an updated parameter can be. *)
Definition is_prob (x : float64) : Prop :=
  exists q, x = Fin q /\ 0 <= q <= 1.

Definition prob_or_nan (x : float64) : Prop := x = NaN \/ is_prob x.

Lemma ratio_range (H T : Q) :
  0 <= H -> 0 <= T ->
  prob_or_nan (Fin H / Fin (0 + H + T))%fl
  /\ (0 < H + T -> is_prob (Fin H / Fin (0 + H + T))%fl).
Proof.
  intros HH HT.
  assert (Pos : 0 < H + T -> is_prob (Fin H / Fin (0 + H + T))%fl).
  { intros Hpos. rewrite fdiv_Fin_nonzero by lra.
    exists (H / (0 + H + T)). split; [reflexivity|]. split.
    - apply Qle_shift_div_l; lra.
    - apply Qle_shift_div_r; lra. }
  split; [|exact Pos].
  destruct (Qlt_le_dec 0 (H + T)) as [Hpos|Hz].
  - right. now apply Pos.
  - left. simpl.
    assert (E1 : 0 + H + T == 0) by lra. assert (E2 : H == 0) by lra.
    apply Qsign_Eq in E1. apply Qsign_Eq in E2. now rewrite E1, E2.
Qed.

Import Degenerate.

Lemma irregular_nan (n : nat) (pa pb : Q) (hs : list nat) :
  in_range n hs -> 0 <= pa <= 1 -> 0 <= pb <= 1 ->
  ~ regular n pa pb hs ->
  m_step (rows_A n (Fin pa) (Fin pb) (experiments n hs)) = NaN
  /\ m_step (rows_B n (Fin pa) (Fin pb) (experiments n hs)) = NaN.
Proof.
  intros Hr Ha Hb Hirr.
  destruct (List.Forall_Exists_dec (fun h => ~ lik n h pa + lik n h pb == 0)
              (fun h => match Qeq_dec (lik n h pa + lik n h pb) 0 with
                        | left e => right (fun f => f e)
                        | right ne => left ne
                        end) hs) as [Hreg|Hex]; [contradiction|].
  apply List.Exists_exists in Hex. destruct Hex as (h & Hin & Hz).
  assert (Hz' : lik n h pa + lik n h pb == 0).
  { destruct (Qeq_dec (lik n h pa + lik n h pb) 0); [assumption | contradiction]. }
  unfold in_range in Hr. rewrite List.Forall_forall in Hr.
  pose proof (lik_nonneg n h pa Ha) as Pa.
  pose proof (lik_nonneg n h pb Hb) as Pb.
  destruct (rows_nan n (Fin pa) (Fin pb) (experiments n hs) h (tails n h))
    as [NA NB].
  - rewrite experiments_map. apply in_map_iff. now exists h.
  - rewrite compute_likelihood_Fin by auto. simpl. lra.
  - rewrite compute_likelihood_Fin by auto. simpl. lra.
  - split; now apply m_step_nan.
Qed.

Lemma regular_range (n : nat) (pa pb : Q) (hs : list nat) :
  in_range n hs -> 0 <= pa <= 1 -> 0 <= pb <= 1 ->
  regular n pa pb hs ->
  let a := m_step (rows_A n (Fin pa) (Fin pb) (experiments n hs)) in
  let b := m_step (rows_B n (Fin pa) (Fin pb) (experiments n hs)) in
  prob_or_nan a /\ prob_or_nan b
  /\ (0 < expH n (wA n pa pb) hs + expT n (wA n pa pb) hs -> is_prob a)
  /\ (0 < expH n (wB n pa pb) hs + expT n (wB n pa pb) hs -> is_prob b).
Proof.
  intros Hr Ha Hb Hreg a b. subst a b.
  destruct (rows_Fin n pa pb hs Hr Hreg) as [-> ->].
  rewrite !m_step_Fin.
  assert (HW : Forall (fun h => 0 <= wA n pa pb h) hs
               /\ Forall (fun h => 0 <= wB n pa pb h) hs).
  { unfold regular in Hreg. rewrite !List.Forall_forall in *.
    split; intros h Hin;
      destruct (weights_range n pa pb h (lik_nonneg n h pa Ha)
                  (lik_nonneg n h pb Hb) (Hreg h Hin)) as (? & ? & ?); tauto. }
  destruct HW as [HWA HWB].
  destruct (expH_nonneg n (wA n pa pb) hs Hr HWA) as [HA TA].
  destruct (expH_nonneg n (wB n pa pb) hs Hr HWB) as [HB TB].
  destruct (ratio_range _ _ HA TA) as [RA PA].
  destruct (ratio_range _ _ HB TB) as [RB PB].
  auto.
Qed.

End Rational.

(** ** The ranking of the restarts *)

Module RestartFacts.
Import Restart.

(** Ascending order of two rows by their [acc]. *)
Definition ascending (r r' : result) : Prop := key_le (acc r) (acc r') = true.

Lemma key_le_Fin (a b : Q) : key_le (Fin a) (Fin b) = true <-> a <= b.
Proof. simpl. apply Qle_bool_iff. Qed.

Lemma key_le_total (x y : float64) : key_le x y = false -> key_le y x = true.
Proof.
  destruct x as [a| | |], y as [b| | |]; simpl; try congruence.
  intros H. apply Qle_bool_iff.
  destruct (Qlt_le_dec b a) as [Hlt|Hle]; [now apply Qlt_le_weak|].
  apply Qle_bool_iff in Hle. congruence.
Qed.

Lemma key_le_trans (x y z : float64) :
  key_le x y = true -> key_le y z = true -> key_le x z = true.
Proof.
  destruct x as [a| | |], y as [b| | |], z as [c| | |]; simpl; try congruence.
  rewrite !Qle_bool_iff. apply Qle_trans.
Qed.

Lemma ascending_trans : Transitive ascending.
Proof. intros r1 r2 r3. apply key_le_trans. Qed.

Lemma insert_row_perm (r : result) (l : list result) :
  Permutation (insert_row r l) (r :: l).
Proof.
  induction l as [|r' l IH]; simpl; [reflexivity|].
  destruct (key_le (acc r) (acc r')); [reflexivity|].
  rewrite IH. apply perm_swap.
Qed.

Lemma sort_values_perm (l : list result) : Permutation (sort_values l) l.
Proof.
  induction l as [|r l IH]; simpl; [reflexivity|].
  rewrite insert_row_perm. now constructor.
Qed.

Lemma insert_row_hd (r a : result) (l : list result) :
  ascending a r -> HdRel ascending a l -> HdRel ascending a (insert_row r l).
Proof.
  intros Har Hl. destruct l as [|r' l]; simpl.
  - now constructor.
  - destruct (key_le (acc r) (acc r')); constructor; auto.
    now inversion Hl.
Qed.

Lemma insert_row_sorted (r : result) (l : list result) :
  Sorted ascending l -> Sorted ascending (insert_row r l).
Proof.
  induction 1 as [|r' l Hs IH Hhd]; simpl.
  - repeat constructor.
  - destruct (key_le (acc r) (acc r')) eqn:E.
    + constructor; [now constructor|]. now constructor.
    + constructor; [exact IH|].
      apply insert_row_hd; [|exact Hhd].
      now apply key_le_total.
Qed.

Lemma sort_values_sorted (l : list result) : Sorted ascending (sort_values l).
Proof.
  induction l as [|r l IH]; simpl; [constructor|].
  now apply insert_row_sorted.
Qed.

Section Driver.

Variable num_coin_toss : nat.
Variable epsilon : Q.
Variables theta_A_true theta_B_true : float64.

Lemma restarts_length (heads : list nat) (guesses : list (float64 * float64)) :
  forall rs,
    restarts num_coin_toss epsilon heads guesses = Returns rs ->
    length rs = length guesses.
Proof.
  induction guesses as [|g guesses IH]; simpl; intros rs.
  - now intros [= <-].
  - destruct (restart _ _ _ g) as [r| |]; simpl; try discriminate.
    destruct (restarts _ _ _ guesses) as [rs'| |]; simpl; try discriminate.
    intros [= <-]. simpl. now rewrite (IH rs' eq_refl).
Qed.

(** In a list in ascending order of the key, numeric accuracies grow
    with the position. *)
Lemma sorted_numeric (rows : list result) :
  StronglySorted ascending rows ->
  forall (i k : nat) (r r' : result) (x y : Q),
    (i < k)%nat -> rows !! i = Some r -> rows !! k = Some r' ->
    acc r = Fin x -> acc r' = Fin y -> x <= y.
Proof.
  intros Hs i k r r' x y Hik Hi Hk Hx Hy.
  apply key_le_Fin. rewrite <- Hx, <- Hy.
  clear Hx Hy. revert i k Hik Hi Hk.
  induction Hs as [|r0 l Hs IH Hall]; intros i k Hik Hi Hk.
  - discriminate.
  - destruct k as [|k]; [lia|]. simpl in Hk.
    destruct i as [|i]; simpl in Hi.
    + injection Hi as <-. rewrite List.Forall_forall in Hall.
      apply Hall. apply list_elem_of_In. eapply list_elem_of_lookup_2. exact Hk.
    + apply (IH i k); auto. lia.
Qed.

(** The sorted frame: the rows of the data frame in ascending order of
    their accuracy. *)
Lemma frame_sorted (rs : list (float64 * float64 * float64 * float64)) :
  let rows := sort_values (frame theta_A_true theta_B_true rs) in
  length rows = length rs
  /\ Permutation rows (frame theta_A_true theta_B_true rs)
  /\ StronglySorted ascending rows.
Proof.
  intros rows. unfold rows.
  set (fr := frame theta_A_true theta_B_true rs).
  pose proof (sort_values_perm fr) as Hperm.
  split.
  { rewrite (Permutation_length Hperm). unfold fr, frame.
    now rewrite length_map. }
  split; [exact Hperm|].
  apply Sorted_StronglySorted; [exact ascending_trans|].
  apply sort_values_sorted.
Qed.

End Driver.

End RestartFacts.

(** ** The logarithm inequalities behind E-M *)

Module LogFacts.

Local Open Scope R_scope.

Lemma ln_le (x y : R) : 0 < x -> x <= y -> ln x <= ln y.
Proof.
  intros Hx [Hlt | ->]; [|apply Rle_refl].
  left. now apply ln_increasing.
Qed.

Lemma ln_le_sub1 (x : R) : 0 < x -> ln x <= x - 1.
Proof.
  intros Hx. pose proof (exp_ineq1_le (ln x)) as H.
  rewrite exp_ln in H by exact Hx. lra.
Qed.

Lemma ln_div (x y : R) : 0 < x -> 0 < y -> ln (x / y) = ln x - ln y.
Proof.
  intros Hx Hy. unfold Rdiv.
  rewrite ln_mult; [|exact Hx|now apply Rinv_0_lt_compat].
  rewrite ln_Rinv by exact Hy. ring.
Qed.

(** Concavity of the logarithm on two points. *)
Lemma jensen2 (w v x y : R) :
  0 <= w -> 0 <= v -> w + v = 1 -> 0 < x -> 0 < y ->
  w * ln x + v * ln y <= ln (w * x + v * y).
Proof.
  intros Hw Hv Hwv Hx Hy.
  set (m := w * x + v * y).
  assert (Hm : 0 < m).
  { unfold m. destruct Hw as [Hw | <-].
    - apply Rplus_lt_le_0_compat; [now apply Rmult_lt_0_compat|].
      apply Rmult_le_pos; lra.
    - assert (v = 1) by lra. subst v. lra. }
  pose proof (ln_le_sub1 (x / m) ltac:(now apply Rdiv_lt_0_compat)) as H1.
  pose proof (ln_le_sub1 (y / m) ltac:(now apply Rdiv_lt_0_compat)) as H2.
  rewrite ln_div in H1, H2 by assumption.
  pose proof (Rmult_le_compat_l w _ _ Hw H1) as W1.
  pose proof (Rmult_le_compat_l v _ _ Hv H2) as W2.
  assert (E : w * (x / m - 1) + v * (y / m - 1) = 0).
  { assert (Em : w * x + v * y = m) by reflexivity. clearbody m.
    replace (w * (x / m - 1) + v * (y / m - 1))
      with ((w * x + v * y) / m - (w + v)) by (field; lra).
    rewrite Em, Hwv. field. lra. }
  replace (ln m) with ((w + v) * ln m) by (rewrite Hwv; ring).
  lra.
Qed.

(** Among Bernoulli parameters, the ratio of the expected counts
    maximises [H ln p + T ln (1 - p)]. *)
Lemma gibbs (H T p p' : R) :
  0 <= H -> 0 <= T -> 0 < p < 1 -> 0 < p' < 1 -> p' * (H + T) = H ->
  H * ln p + T * ln (1 - p) <= H * ln p' + T * ln (1 - p').
Proof.
  intros HH HT [Hp0 Hp1] [Hq0 Hq1] E.
  pose proof (ln_le_sub1 (p / p') ltac:(now apply Rdiv_lt_0_compat)) as H1.
  pose proof (ln_le_sub1 ((1 - p) / (1 - p'))
                ltac:(apply Rdiv_lt_0_compat; lra)) as H2.
  rewrite ln_div in H1 by assumption.
  rewrite ln_div in H2 by lra.
  pose proof (Rmult_le_compat_l H _ _ HH H1) as W1.
  pose proof (Rmult_le_compat_l T _ _ HT H2) as W2.
  assert (ET : T = (1 - p') * (H + T)) by lra.
  assert (E1 : H * (p / p' - 1) + T * ((1 - p) / (1 - p') - 1) = 0).
  { revert E ET. generalize (H + T). intros S E ET. subst H T. field. lra. }
  lra.
Qed.

End LogFacts.

(** ** Monotonicity of the exact update *)

(** The update formulas of one pass, evaluated on rationals without
    rounding, do not decrease the observed-data log-likelihood.  This is
    a fact about the formulas: the doubles the loop stores are rounded,
    and a likelihood too small for a double is 0.0 there. *)

Module Monotone.
Import EM EMFacts MStep Rational LogFacts.

(** Sum of a real function over the experiments. *)
Definition Rsum (f : nat -> R) (hs : list nat) : R :=
  fold_right (fun h acc => (f h + acc)%R) 0%R hs.

Section Sums.

Local Open Scope R_scope.

Lemma Rsum_le (f g : nat -> R) (hs : list nat) :
  (forall h, In h hs -> f h <= g h) -> Rsum f hs <= Rsum g hs.
Proof.
  induction hs as [|h hs IH]; simpl; intros H; [lra|].
  pose proof (H h (or_introl eq_refl)).
  pose proof (IH (fun k Hk => H k (or_intror Hk))). lra.
Qed.

Lemma Rsum_ext (f g : nat -> R) (hs : list nat) :
  (forall h, In h hs -> f h = g h) -> Rsum f hs = Rsum g hs.
Proof.
  induction hs as [|h hs IH]; simpl; intros H; [reflexivity|].
  rewrite (H h (or_introl eq_refl)).
  now rewrite (IH (fun k Hk => H k (or_intror Hk))).
Qed.

Lemma Rsum_plus (f g : nat -> R) (hs : list nat) :
  Rsum (fun h => f h + g h) hs = Rsum f hs + Rsum g hs.
Proof. induction hs as [|h hs IH]; simpl; [lra | rewrite IH; lra]. Qed.

Lemma Rsum_scal (f : nat -> R) (c : R) (hs : list nat) :
  Rsum (fun h => f h * c) hs = Rsum f hs * c.
Proof. induction hs as [|h hs IH]; simpl; [lra | rewrite IH; lra]. Qed.

Lemma Q2R_0 : Q2R 0 = 0.
Proof. unfold Q2R. simpl. lra. Qed.

Lemma Q2R_1 : Q2R 1 = 1.
Proof. unfold Q2R. simpl. lra. Qed.

Lemma Q2R_Qsum (f : nat -> Q) (hs : list nat) :
  Q2R (Qsum (map f hs)) = Rsum (fun h => Q2R (f h)) hs.
Proof.
  induction hs as [|h hs IH]; simpl.
  - exact Q2R_0.
  - rewrite (Qeq_eqR _ _ (Qsum_cons _ _)), Q2R_plus, IH. reflexivity.
Qed.

Lemma Q2R_inject_nat (k : nat) : Q2R (inject_Z (Z.of_nat k)) = INR k.
Proof. unfold Q2R. simpl. rewrite INR_IZR_INZ. lra. Qed.

Lemma Q2R_pow (q : Q) (k : nat) : Q2R (q ^ Z.of_nat k) = Q2R q ^ k.
Proof.
  induction k as [|k IH].
  - simpl. exact Q2R_1.
  - rewrite Nat2Z.inj_succ. unfold Z.succ.
    rewrite (Qeq_eqR _ _ (Qpower_plus' q (Z.of_nat k) 1 ltac:(lia))).
    rewrite Q2R_mult, IH. rewrite (Qeq_eqR (q ^ 1) q) by apply Qpower_1_r.
    simpl. lra.
Qed.

Lemma Q2R_lik (n h : nat) (p : Q) :
  (h <= n)%nat ->
  Q2R (lik n h p) = INR (comb n h) * Q2R p ^ h * (1 - Q2R p) ^ (n - h).
Proof.
  intros Hh. unfold lik.
  replace (Z.of_nat n - Z.of_nat h)%Z with (Z.of_nat (n - h)) by lia.
  rewrite !Q2R_mult, !Q2R_pow, Q2R_inject_nat, Q2R_minus, Q2R_1.
  reflexivity.
Qed.

End Sums.

Section Coin.

Variable n : nat.
Variable w : nat -> Q.

Lemma comb_diag (k : nat) : comb k k = 1%nat.
Proof.
  pose proof (comb_fact k k (Nat.le_refl k)) as E.
  rewrite Nat.sub_diag in E. change (fact 0) with 1%nat in E.
  pose proof (lt_O_fact k). nia.
Qed.

Lemma expH_pos_exists (hs : list nat) :
  0 < expH n w hs -> exists h, In h hs /\ (0 < h)%nat.
Proof.
  unfold expH. induction hs as [|h hs IH]; cbn [map].
  - unfold Qsum. simpl. intros H. discriminate.
  - rewrite Qsum_cons. intros H.
    destruct h as [|h].
    + destruct IH as (k & Hk & Hpos).
      * cbn [qrow fst] in H. change (inject_Z (Z.of_nat 0)) with 0 in H.
        rewrite Qmult_0_r, Qplus_0_l in H. exact H.
      * exists k. split; [now right | exact Hpos].
    + exists (S h). split; [now left | lia].
Qed.

Lemma expT_pos_exists (hs : list nat) :
  0 < expT n w hs -> exists h, In h hs /\ (h <> n)%nat.
Proof.
  unfold expT. induction hs as [|h hs IH]; cbn [map].
  - unfold Qsum. simpl. intros H. discriminate.
  - rewrite Qsum_cons. intros H.
    destruct (Nat.eq_dec h n) as [->|Hne].
    + destruct IH as (k & Hk & Hpos).
      * cbn [qrow snd] in H. unfold tails in H at 1.
        rewrite Z.sub_diag in H. change (inject_Z 0) with 0 in H.
        rewrite Qmult_0_r, Qplus_0_l in H. exact H.
      * exists k. split; [now right | exact Hpos].
    + exists h. split; [now left | exact Hne].
Qed.

Lemma Qsum2_zero (a b : Q) : 0 <= a -> 0 <= b -> a + b == 0 -> a == 0 /\ b == 0.
Proof. intros Ha Hb E. split; lra. Qed.

Lemma Qmult_pos_zero (a b : Q) : 0 < a -> a * b == 0 -> b == 0.
Proof.
  intros Ha E. destruct (Qmult_integral _ _ E) as [E'|E']; [lra | exact E'].
Qed.

Lemma expH_zero_heads (hs : list nat) :
  Forall (fun h => 0 < w h) hs ->
  expH n w hs == 0 -> Forall (fun h => h = 0%nat) hs.
Proof.
  unfold expH. induction 1 as [|h hs Hh Hhs IH]; cbn [map]; [constructor|].
  rewrite Qsum_cons. intros E. cbn beta in Hh.
  assert (Hrest : 0 <= Qsum (map (fun h0 => fst (qrow n w h0)) hs)).
  { apply Qsum_nonneg. apply List.Forall_map.
    eapply List.Forall_impl; [|exact Hhs]. intros k Hk. cbn [qrow fst].
    cbn beta in Hk.
    apply Qmult_le_0_compat; [lra | apply inject_nat_nonneg]. }
  cbn [qrow fst] in E.
  pose proof (inject_nat_nonneg h) as Hnn.
  assert (Hprod : 0 <= w h * inject_Z (Z.of_nat h))
    by (apply Qmult_le_0_compat; [lra | assumption]).
  destruct (Qsum2_zero _ _ Hprod Hrest E) as [Ea Eb].
  constructor; [|now apply IH].
  apply (Qmult_pos_zero _ _ Hh) in Ea. unfold Qeq in Ea. simpl in Ea. lia.
Qed.

Lemma expT_zero_tails (hs : list nat) :
  in_range n hs -> Forall (fun h => 0 < w h) hs ->
  expT n w hs == 0 -> Forall (fun h => h = n) hs.
Proof.
  unfold expT, in_range. intros Hr.
  induction 1 as [|h hs Hh Hhs IH]; cbn [map]; [constructor|].
  rewrite Qsum_cons. intros E. inversion Hr as [|? ? Hhn Hr']; subst.
  cbn beta in Hh.
  assert (Hrest : 0 <= Qsum (map (fun h0 => snd (qrow n w h0)) hs)).
  { apply Qsum_nonneg. apply List.Forall_map.
    rewrite List.Forall_forall in *. intros k Hk. cbn [qrow snd].
    apply Qmult_le_0_compat; [specialize (Hhs k Hk); simpl in Hhs; lra|].
    apply tails_nonneg. now apply Hr'. }
  cbn [qrow snd] in E.
  pose proof (tails_nonneg n h Hhn) as Hnn.
  assert (Hprod : 0 <= w h * inject_Z (tails n h))
    by (apply Qmult_le_0_compat; [lra | assumption]).
  destruct (Qsum2_zero _ _ Hprod Hrest E) as [Ea Eb].
  constructor; [|now apply IH].
  apply (Qmult_pos_zero _ _ Hh) in Ea. unfold tails, Qeq in Ea. simpl in Ea. lia.
Qed.

Lemma comb_0_r (k : nat) : comb k 0 = 1%nat.
Proof. now destruct k. Qed.

Lemma lik_0_at_0 (p : Q) : p == 0 -> lik n 0 p == 1.
Proof.
  intros Hp. unfold lik. rewrite comb_0_r, Hp.
  assert (E : 1 - 0 == 1) by ring. rewrite E, Qpower_1.
  simpl. ring.
Qed.

Lemma lik_n_at_1 (p : Q) : p == 1 -> lik n n p == 1.
Proof.
  intros Hp. unfold lik. rewrite comb_diag, Hp, Z.sub_diag, Qpower_1.
  simpl. ring.
Qed.

Lemma lik_zero_at_0 (h : nat) (p : Q) : (0 < h)%nat -> p == 0 -> lik n h p == 0.
Proof.
  intros Hh Hp. unfold lik. rewrite Hp, Qpower_0 by lia. ring.
Qed.

Lemma lik_zero_at_1 (h : nat) (p : Q) : (h < n)%nat -> p == 1 -> lik n h p == 0.
Proof.
  intros Hh Hp. unfold lik. rewrite Hp.
  assert (E : 1 - 1 == 0) by ring. rewrite E, Qpower_0 by lia. ring.
Qed.

Section RealSide.

Local Open Scope R_scope.

Lemma Q2R_pos (q : Q) : (0 < q)%Q -> 0 < Q2R q.
Proof. intros H. rewrite <- Q2R_0. now apply Qlt_Rlt. Qed.

Lemma Q2R_nonneg (q : Q) : (0 <= q)%Q -> 0 <= Q2R q.
Proof. intros H. rewrite <- Q2R_0. now apply Qle_Rle. Qed.

Lemma Q2R_prob (p : Q) : (0 <= p <= 1)%Q -> 0 <= Q2R p <= 1.
Proof.
  intros [H0 H1]. split; [now apply Q2R_nonneg|].
  rewrite <- Q2R_1. now apply Qle_Rle.
Qed.

Lemma lik_0_le_1 (p : Q) : (0 <= p <= 1)%Q -> Q2R (lik n 0 p) <= 1.
Proof.
  intros Hp. apply Q2R_prob in Hp.
  rewrite Q2R_lik by lia. rewrite comb_0_r. simpl INR. simpl pow at 1.
  replace 1 with (1 ^ (n - 0)) at 4 by apply pow1.
  assert (H : (1 - Q2R p) ^ (n - 0) <= 1 ^ (n - 0)) by (apply pow_incr; lra).
  lra.
Qed.

Lemma lik_n_le_1 (p : Q) : (0 <= p <= 1)%Q -> Q2R (lik n n p) <= 1.
Proof.
  intros Hp. apply Q2R_prob in Hp.
  rewrite Q2R_lik by lia. rewrite comb_diag, Nat.sub_diag. simpl INR.
  simpl pow at 2.
  assert (H : Q2R p ^ n <= 1 ^ n) by (apply pow_incr; lra).
  rewrite pow1 in H. lra.
Qed.

Lemma ln_lik_interior (h : nat) (p : Q) :
  (h <= n)%nat -> (0 < p < 1)%Q ->
  ln (Q2R (lik n h p))
  = ln (INR (comb n h)) + INR h * ln (Q2R p) + INR (n - h) * ln (1 - Q2R p).
Proof.
  intros Hh [H0 H1].
  assert (P0 : 0 < Q2R p) by now apply Q2R_pos.
  assert (P1 : Q2R p < 1) by (rewrite <- Q2R_1; now apply Qlt_Rlt).
  assert (C : 0 < INR (comb n h)) by (apply lt_0_INR; now apply comb_pos).
  rewrite Q2R_lik by exact Hh.
  rewrite !ln_mult, !ln_pow; try lra; try (apply pow_lt; lra).
  apply Rmult_lt_0_compat; [exact C | apply pow_lt; lra].
Qed.

Lemma Q2R_tails (h : nat) :
  (h <= n)%nat -> Q2R (inject_Z (tails n h)) = INR (n - h).
Proof.
  intros Hh. unfold tails.
  replace (Z.of_nat n - Z.of_nat h)%Z with (Z.of_nat (n - h)) by lia.
  apply Q2R_inject_nat.
Qed.

Lemma coin_sum_interior (p : Q) (hs : list nat) :
  in_range n hs -> (0 < p < 1)%Q ->
  Rsum (fun h => Q2R (w h) * ln (Q2R (lik n h p))) hs
  = Rsum (fun h => Q2R (w h) * ln (INR (comb n h))) hs
    + Q2R (expH n w hs) * ln (Q2R p)
    + Q2R (expT n w hs) * ln (1 - Q2R p).
Proof.
  intros Hr Hp. unfold in_range in Hr.
  induction Hr as [|h hs Hh Hr IH].
  - unfold expH, expT, Qsum. simpl. rewrite Q2R_0. lra.
  - simpl Rsum. rewrite IH. unfold expH, expT. cbn [map].
    rewrite !(Qeq_eqR _ _ (Qsum_cons _ _)), !Q2R_plus.
    cbn [qrow fst snd]. rewrite !Q2R_mult, Q2R_inject_nat, Q2R_tails by exact Hh.
    rewrite ln_lik_interior by assumption.
    fold (expH n w hs). fold (expT n w hs). lra.
Qed.

End RealSide.

(** The parameter the M-step gives for the weights [w]. *)
Definition update (hs : list nat) : Q :=
  expH n w hs / (0 + expH n w hs + expT n w hs).

(** One coin: with positive weights, the updated parameter keeps every
    likelihood positive and does not decrease the weighted sum of the
    log-likelihoods. *)
Lemma coin_improves (p : Q) (hs : list nat) :
  (0 < n)%nat -> hs <> [] -> in_range n hs ->
  Forall (fun h => 0 < w h) hs ->
  0 <= p <= 1 -> Forall (fun h => 0 < lik n h p) hs ->
  0 <= update hs <= 1
  /\ Forall (fun h => 0 < lik n h (update hs)) hs
  /\ (Rsum (fun h => Q2R (w h) * ln (Q2R (lik n h p))) hs
      <= Rsum (fun h => Q2R (w h) * ln (Q2R (lik n h (update hs)))) hs)%R.
Proof.
  intros Hn Hne Hr Hw Hp Hpos.
  assert (Hw0 : Forall (fun h => 0 <= w h) hs).
  { eapply List.Forall_impl; [|exact Hw]. intros h Hh. cbn beta in Hh. lra. }
  destruct (expH_nonneg n w hs Hr Hw0) as [HH HT].
  pose proof (denominator_pos n w hs Hn Hne Hw) as HD.
  unfold update.
  set (H := expH n w hs) in *. set (T := expT n w hs) in *.
  assert (Hrange : 0 <= H / (0 + H + T) <= 1).
  { split; [apply Qle_shift_div_l | apply Qle_shift_div_r]; lra. }
  split; [exact Hrange|].
  assert (Hmono : forall h, In h hs ->
            0 < lik n h (H / (0 + H + T)) ->
            (Q2R (lik n h p) <= Q2R (lik n h (H / (0 + H + T))))%R ->
            (Q2R (w h) * ln (Q2R (lik n h p))
             <= Q2R (w h) * ln (Q2R (lik n h (H / (0 + H + T)))))%R).
  { intros h Hin _ Hle. rewrite List.Forall_forall in Hw0, Hpos.
    apply Rmult_le_compat_l; [apply Q2R_nonneg; now apply Hw0|].
    apply ln_le; [apply Q2R_pos; now apply Hpos | exact Hle]. }
  destruct (Qlt_le_dec 0 H) as [HposH|HzH].
  2:{ (* no head was seen: the update is 0 *)
    assert (EH : H == 0) by lra.
    pose proof (expH_zero_heads hs Hw EH) as Hall.
    assert (Eu : H / (0 + H + T) == 0) by (rewrite EH; field; lra).
    rewrite List.Forall_forall in Hall.
    assert (Hone : forall h, In h hs -> lik n h (H / (0 + H + T)) == 1).
    { intros h Hin. rewrite (Hall h Hin). now apply lik_0_at_0. }
    split.
    - apply List.Forall_forall. intros h Hin. rewrite (Hone h Hin). reflexivity.
    - apply Rsum_le. intros h Hin. apply Hmono; auto.
      + rewrite (Hone h Hin). reflexivity.
      + rewrite (Qeq_eqR _ _ (Hone h Hin)), Q2R_1, (Hall h Hin).
        now apply lik_0_le_1. }
  destruct (Qlt_le_dec 0 T) as [HposT|HzT].
  2:{ (* no tail was seen: the update is 1 *)
    assert (ET : T == 0) by lra.
    pose proof (expT_zero_tails hs Hr Hw ET) as Hall.
    assert (Eu : H / (0 + H + T) == 1) by (rewrite ET; field; lra).
    rewrite List.Forall_forall in Hall.
    assert (Hone : forall h, In h hs -> lik n h (H / (0 + H + T)) == 1).
    { intros h Hin. rewrite (Hall h Hin). now apply lik_n_at_1. }
    split.
    - apply List.Forall_forall. intros h Hin. rewrite (Hone h Hin). reflexivity.
    - apply Rsum_le. intros h Hin. apply Hmono; auto.
      + rewrite (Hone h Hin). reflexivity.
      + rewrite (Qeq_eqR _ _ (Hone h Hin)), Q2R_1, (Hall h Hin).
        now apply lik_n_le_1. }
  (* heads and tails were seen: both parameters are interior *)
  assert (Hu : 0 < H / (0 + H + T) < 1).
  { split; [apply Qlt_shift_div_l | apply Qlt_shift_div_r]; lra. }
  assert (Hpi : 0 < p < 1).
  { destruct (expH_pos_exists hs HposH) as (h1 & Hin1 & Hh1).
    destruct (expT_pos_exists hs HposT) as (h2 & Hin2 & Hh2).
    unfold in_range in Hr. rewrite List.Forall_forall in Hr, Hpos.
    pose proof (Hpos h1 Hin1) as L1. pose proof (Hpos h2 Hin2) as L2.
    pose proof (Hr h2 Hin2) as R2. cbn beta in L1, L2, R2.
    split.
    - destruct (Qlt_le_dec 0 p) as [Hlt|Hle]; [exact Hlt|]. exfalso.
      assert (E : p == 0) by lra.
      rewrite (lik_zero_at_0 h1 p Hh1 E) in L1. discriminate.
    - destruct (Qlt_le_dec p 1) as [Hlt|Hle]; [exact Hlt|]. exfalso.
      assert (E : p == 1) by lra.
      rewrite (lik_zero_at_1 h2 p ltac:(lia) E) in L2. discriminate. }
  split.
  - unfold in_range in Hr. rewrite List.Forall_forall in *.
    intros h Hin. apply lik_pos; [now apply Hr | tauto | tauto].
  - rewrite !coin_sum_interior by assumption.
    assert (G : (Q2R H * ln (Q2R p) + Q2R T * ln (1 - Q2R p)
                 <= Q2R H * ln (Q2R (H / (0 + H + T)))
                    + Q2R T * ln (1 - Q2R (H / (0 + H + T))))%R).
    { apply gibbs.
      - now apply Q2R_nonneg.
      - now apply Q2R_nonneg.
      - destruct Hpi. split; [now apply Q2R_pos|].
        rewrite <- Q2R_1. now apply Qlt_Rlt.
      - destruct Hu. split; [now apply Q2R_pos|].
        rewrite <- Q2R_1. now apply Qlt_Rlt.
      - rewrite <- Q2R_plus, <- Q2R_mult. apply Qeq_eqR. field. lra. }
    fold H T. lra.
Qed.

End Coin.

(** The likelihood of one experiment under the mixture of the two coins,
    each selected with probability 1/2, and the observed-data
    log-likelihood of the data set. *)
Definition mix (n h : nat) (pa pb : Q) : Q :=
  (1 # 2) * lik n h pa + (1 # 2) * lik n h pb.

Definition loglik (n : nat) (hs : list nat) (pa pb : Q) : R :=
  Rsum (fun h => ln (Q2R (mix n h pa pb))) hs.

Section Step.

Local Open Scope R_scope.

Lemma mixture_jensen (a b a' b' : R) :
  0 < a -> 0 < b -> 0 < a' -> 0 < b' ->
  ln (/ 2 * a + / 2 * b) + a / (a + b) * ln a' + b / (a + b) * ln b'
  <= ln (/ 2 * a' + / 2 * b') + a / (a + b) * ln a + b / (a + b) * ln b.
Proof.
  intros Ha Hb Ha' Hb'.
  assert (Hab : 0 < a + b) by lra.
  pose proof (jensen2 (a / (a + b)) (b / (a + b)) (a' / a) (b' / b)) as J.
  assert (W1 : 0 < a / (a + b)) by now apply Rdiv_lt_0_compat.
  assert (W2 : 0 < b / (a + b)) by now apply Rdiv_lt_0_compat.
  specialize (J ltac:(lra) ltac:(lra) ltac:(field; lra)
                ltac:(now apply Rdiv_lt_0_compat)
                ltac:(now apply Rdiv_lt_0_compat)).
  rewrite !ln_div in J by assumption.
  replace (a / (a + b) * (a' / a) + b / (a + b) * (b' / b))
    with ((/ 2 * a' + / 2 * b') / (/ 2 * a + / 2 * b)) in J by (field; lra).
  rewrite ln_div in J by lra.
  lra.
Qed.

Variable n : nat.
Variables pa pb : Q.
Variable hs : list nat.

Hypothesis Hn : (0 < n)%nat.
Hypothesis Hne : hs <> [].
Hypothesis Hr : in_range n hs.
Hypothesis Ha : (0 <= pa <= 1)%Q.
Hypothesis Hb : (0 <= pb <= 1)%Q.
Hypothesis Hpos : positive n pa pb hs.

Lemma Q2R_half : Q2R (1 # 2) = / 2.
Proof. unfold Q2R. simpl. lra. Qed.

Lemma Q2R_mix (h : nat) (qa qb : Q) :
  Q2R (mix n h qa qb) = / 2 * Q2R (lik n h qa) + / 2 * Q2R (lik n h qb).
Proof. unfold mix. now rewrite Q2R_plus, !Q2R_mult, Q2R_half. Qed.

(** One pass: the parameters stay probabilities, the likelihoods stay
    positive and the log-likelihood does not decrease. *)
Lemma step_improves :
  let pa' := update n (wA n pa pb) hs in
  let pb' := update n (wB n pa pb) hs in
  (0 <= pa' <= 1)%Q /\ (0 <= pb' <= 1)%Q
  /\ positive n pa' pb' hs
  /\ loglik n hs pa pb <= loglik n hs pa' pb'.
Proof.
  intros pa' pb'.
  pose proof (positive_weights n pa pb hs Hpos) as HW.
  assert (HWA : Forall (fun h => (0 < wA n pa pb h)%Q) hs).
  { weaken HW. }
  assert (HWB : Forall (fun h => (0 < wB n pa pb h)%Q) hs).
  { weaken HW. }
  assert (HPA : Forall (fun h => (0 < lik n h pa)%Q) hs).
  { weaken Hpos. }
  assert (HPB : Forall (fun h => (0 < lik n h pb)%Q) hs).
  { weaken Hpos. }
  destruct (coin_improves n (wA n pa pb) pa hs Hn Hne Hr HWA Ha HPA)
    as (RA & PA & IA).
  destruct (coin_improves n (wB n pa pb) pb hs Hn Hne Hr HWB Hb HPB)
    as (RB & PB & IB).
  fold pa' in RA, PA, IA. fold pb' in RB, PB, IB.
  split; [exact RA|]. split; [exact RB|]. split.
  { unfold positive. rewrite List.Forall_forall in *.
    intros h Hin. split; [now apply PA | now apply PB]. }
  unfold loglik.
  assert (S : Rsum (fun h => ln (Q2R (mix n h pa pb))
                             + Q2R (wA n pa pb h) * ln (Q2R (lik n h pa'))
                             + Q2R (wB n pa pb h) * ln (Q2R (lik n h pb'))) hs
              <= Rsum (fun h => ln (Q2R (mix n h pa' pb'))
                                + Q2R (wA n pa pb h) * ln (Q2R (lik n h pa))
                                + Q2R (wB n pa pb h) * ln (Q2R (lik n h pb))) hs).
  { apply Rsum_le. intros h Hin.
    rewrite List.Forall_forall in HPA, HPB, PA, PB.
    pose proof (Q2R_pos _ (HPA h Hin)) as A0.
    pose proof (Q2R_pos _ (HPB h Hin)) as B0.
    pose proof (Q2R_pos _ (PA h Hin)) as A1.
    pose proof (Q2R_pos _ (PB h Hin)) as B1.
    assert (Hab : ~ (lik n h pa + lik n h pb == 0)%Q).
    { pose proof (HPA h Hin) as X. pose proof (HPB h Hin) as Y.
      cbn beta in X, Y. lra. }
    unfold wA, wB. rewrite !Q2R_div, !Q2R_plus, !Q2R_mix by exact Hab.
    now apply mixture_jensen. }
  rewrite !Rsum_plus in S. lra.
Qed.

End Step.

End Monotone.

(** * Further properties of the notebook's code *)

(** ** The E-step *)

Module EStepFacts.
Import EM EMFacts MStep Degenerate Rational.






End EStepFacts.

(** ** Exchanging the names of the two coins *)

Module Symmetry.
Import EM EMFacts MStep.

(** The state with the parts of coin A and coin B exchanged. *)
Definition swap (s : state) : state :=
  {| head_counts := head_counts s;
     tail_counts := tail_counts s;
     pA_heads := pB_heads s;
     pB_heads := pA_heads s;
     j := j s;
     improvement := improvement s;
     theta_A := theta_B s;
     theta_B := theta_A s |}.

Definition row_eq (r r' : row) : Prop :=
  (fst r == fst r')%fl /\ (snd r == snd r')%fl.

Lemma fold_fadd_Forall2 (l l' : list float64) :
  Forall2 feq l l' ->
  forall a a', (a == a')%fl -> (fold_left fadd l a == fold_left fadd l' a')%fl.
Proof.
  induction 1 as [|x x' l l' Hx _ IH]; intros a a' Ha; simpl; [exact Ha|].
  apply IH. now rewrite Ha, Hx.
Qed.

Lemma fsum_rows_eq (e e' : list row) :
  Forall2 row_eq e e' ->
  (fsum (map fst e) == fsum (map fst e'))%fl
  /\ (fsum (map snd e) == fsum (map snd e'))%fl.
Proof.
  intros H. unfold fsum. split; apply fold_fadd_Forall2; try reflexivity.
  - induction H as [|r r' e e' [Hr _] _ IH]; simpl; constructor; auto.
  - induction H as [|r r' e e' [_ Hr] _ IH]; simpl; constructor; auto.
Qed.

Lemma m_step_rows_eq (e e' : list row) :
  Forall2 row_eq e e' ->
  (m_step e == m_step e')%fl /\ (np_theta e == np_theta e')%fl.
Proof.
  intros H. destruct (fsum_rows_eq e e' H) as [H1 H2].
  rewrite !m_step_ratio, !np_theta_ratio. now rewrite H1, H2.
Qed.

Lemma weights_swap (lA lB : float64) :
  (weightA lB lA == weightB lA lB)%fl /\ (weightB lB lA == weightA lA lB)%fl.
Proof.
  unfold weightA, weightB. split; apply fdiv_proper; try reflexivity;
    apply fadd_comm.
Qed.

Lemma scale_eq (w w' : float64) (h : nat) (t : Z) :
  (w == w')%fl -> row_eq (scale w h t) (scale w' h t).
Proof. intros H. unfold scale, row_eq. simpl. now rewrite H. Qed.

Lemma rows_swap (n : nat) (pA pB : float64) (exps : list (nat * Z)) :
  Forall2 row_eq (rows_A n pB pA exps) (rows_B n pA pB exps)
  /\ Forall2 row_eq (rows_B n pB pA exps) (rows_A n pA pB exps).
Proof.
  unfold rows_A, rows_B.
  split; induction exps as [|[h t] exps IH]; simpl; constructor; auto;
    apply scale_eq; apply weights_swap.
Qed.

Lemma max2_comm (x y : float64) :
  x <> NaN -> y <> NaN -> (max2 x y == max2 y x)%fl.
Proof.
  unfold max2. destruct x as [a| | |], y as [b| | |]; simpl; try congruence;
    intros _ _; auto; try reflexivity.
  destruct (a ?= b) eqn:E1; destruct (b ?= a) eqn:E2; simpl;
    try reflexivity.
  - apply Qeq_alt in E1. now symmetry.
  - apply Qeq_alt in E1. exact E1.
  - apply Qlt_alt in E1. apply Qlt_alt in E2. lra.
  - apply Qeq_alt in E2. now symmetry.
  - apply Qgt_alt in E1. apply Qgt_alt in E2. lra.
Qed.

Lemma max2_proper (x x' y y' : float64) :
  (x == x')%fl -> (y == y')%fl -> (max2 x y == max2 x' y')%fl.
Proof.
  intros Hx Hy. unfold max2. rewrite (fgt_proper y y' Hy x x' Hx).
  now destruct (fgt y' x').
Qed.

Lemma swap_init (n : nat) (heads : list nat) (a b : float64) :
  swap (init n heads a b) = init n heads b a.
Proof. reflexivity. Qed.

Lemma swap_wf (s : state) : wf s -> wf (swap s).
Proof. unfold wf, swap. simpl. tauto. Qed.

(** X5.  One pass treats the two coins alike: run on the state with the
    parts of A and B exchanged, it stores for A what it would have stored
    for B and for B what it would have stored for A, in the trace arrays
    and in [theta_A], [theta_B]; when the current and the stored
    parameters are numbers, the improvement is the same too. *)
Theorem pass_label_symmetry (n : nat) (s : state) (pA pB : float64) :
  wf s -> (j s + 1 < trace_len)%nat ->
  pA_heads s !! j s = Some pA -> pB_heads s !! j s = Some pB ->
  zip (head_counts s) (tail_counts s) <> [] ->
  exists t t' a b a' b' ta tb ta' tb',
    iteration n s = Returns t /\ iteration n (swap s) = Returns t'
    /\ pA_heads t !! (j s + 1)%nat = Some a
    /\ pB_heads t !! (j s + 1)%nat = Some b
    /\ pA_heads t' !! (j s + 1)%nat = Some a'
    /\ pB_heads t' !! (j s + 1)%nat = Some b'
    /\ theta_A t = Some ta /\ theta_B t = Some tb
    /\ theta_A t' = Some ta' /\ theta_B t' = Some tb'
    /\ (a' == b)%fl /\ (b' == a)%fl /\ (ta' == tb)%fl /\ (tb' == ta)%fl
    /\ (forall x y qa qb,
           pA = Fin x -> pB = Fin y -> a = Fin qa -> b = Fin qb ->
           (improvement t' == improvement t)%fl).
Proof.
  intros Hwf Hj EA EB Hne.
  pose proof (iteration_returns n s pA pB Hwf Hj EA EB Hne) as E1.
  pose proof (iteration_returns n (swap s) pB pA (swap_wf s Hwf) Hj EB EA Hne)
    as E2.
  destruct Hwf as (LA & LB & _).
  set (exps := zip (head_counts s) (tail_counts s)) in *.
  destruct (rows_swap n pA pB exps) as [RA RB].
  destruct (m_step_rows_eq _ _ RA) as [MA NA].
  destruct (m_step_rows_eq _ _ RB) as [MB NB].
  eexists _, _, _, _, _, _, _, _, _, _.
  split; [exact E1|]. split; [exact E2|].
  unfold next, swap. cbn [pA_heads pB_heads theta_A theta_B j improvement
                           head_counts tail_counts].
  rewrite !list_lookup_insert_eq by lia. fold exps.
  repeat (split; [reflexivity|]).
  split; [exact MA|]. split; [exact MB|]. split; [exact NA|].
  split; [exact NB|].
  intros x y qa qb -> -> Ha Hb.
  rewrite Ha, Hb in *.
  transitivity (max2 (fabs (Fin qb - Fin y)) (fabs (Fin qa - Fin x)))%fl.
  - apply max2_proper; apply fabs_proper; apply fsub_proper;
      try reflexivity; assumption.
  - apply max2_comm; discriminate.
Qed.

Lemma pass_label_symmetry_witness :
  let s := init 10 [5; 9]%nat (Fin (3 # 5)) (Fin (1 # 2)) in
  exists t t', iteration 10 s = Returns t /\ iteration 10 (swap s) = Returns t'.
Proof.
  intros s.
  destruct (pass_label_symmetry 10 s (Fin (3 # 5)) (Fin (1 # 2)))
    as (t & t' & _ & _ & _ & _ & _ & _ & _ & _ & E1 & E2 & _).
  - apply init_wf.
  - unfold trace_len. simpl. lia.
  - reflexivity.
  - reflexivity.
  - discriminate.
  - exists t, t'. auto.
Defined.

End Symmetry.

(** ** The trace arrays *)

Module TraceFacts.
Import EM EMFacts MStep.

Section Arrays.

Variable num_coin_toss : nat.
Variable epsilon : Q.

(** What a pass that completes has done to the variables. *)
Lemma iteration_inv (s s' : state) :
  iteration num_coin_toss s = Returns s' ->
  exists a b ta tb,
    (j s + 1 < length (pA_heads s))%nat
    /\ (j s + 1 < length (pB_heads s))%nat
    /\ pA_heads s' = <[(j s + 1)%nat := a]> (pA_heads s)
    /\ pB_heads s' = <[(j s + 1)%nat := b]> (pB_heads s)
    /\ j s' = (j s + 1)%nat
    /\ theta_A s' = Some ta /\ theta_B s' = Some tb
    /\ (a == ta)%fl /\ (b == tb)%fl.
Proof.
  unfold iteration.
  destruct (e_steps _ _ _ _ _) as [es| |]; simpl; try discriminate.
  destruct (fst es) as [|rA eA] eqn:EA; simpl; try discriminate.
  unfold setitem at 1.
  destruct (decide (j s + 1 < length (pA_heads s))%nat) as [HA|HA];
    simpl; try discriminate.
  destruct (snd es) as [|rB eB] eqn:EB; simpl; try discriminate.
  unfold setitem at 1.
  destruct (decide (j s + 1 < length (pB_heads s))%nat) as [HB|HB];
    simpl; try discriminate.
  unfold getitem.
  rewrite !list_lookup_insert_eq by assumption. simpl.
  rewrite !list_lookup_insert_ne by lia.
  destruct (pA_heads s !! j s); simpl; try discriminate.
  destruct (pB_heads s !! j s); simpl; try discriminate.
  intros [= <-]. simpl.
  eexists _, _, _, _. repeat (split; [first [assumption | reflexivity]|]).
  split.
  - change (m_step (rA :: eA) == np_theta (rA :: eA))%fl.
    now rewrite m_step_ratio, np_theta_ratio.
  - change (m_step (rB :: eB) == np_theta (rB :: eB))%fl.
    now rewrite m_step_ratio, np_theta_ratio.
Qed.

Lemma loop_passes (fuel : nat) :
  forall s s',
    loop num_coin_toss epsilon fuel s = Returns s' ->
    exists k, passes num_coin_toss epsilon k s s'
              /\ (fgt (improvement s) (Fin epsilon) = true -> (0 < k)%nat).
Proof.
  induction fuel as [|fuel IH]; intros s s'; simpl;
    destruct (fgt (improvement s) (Fin epsilon)) eqn:Et; try discriminate.
  - intros [= <-]. exists 0%nat. split; [constructor | discriminate].
  - destruct (iteration num_coin_toss s) as [s1| |] eqn:E1; simpl;
      try discriminate.
    intros H. destruct (IH _ _ H) as (k & Hp & _).
    exists (S k). split; [|lia]. now apply (passes_S _ _ k s s1 s').
  - intros [= <-]. exists 0%nat. split; [constructor | discriminate].
Qed.

(** The slots a sequence of passes leaves alone. *)
Lemma passes_arrays (k : nat) (s s' : state) :
  passes num_coin_toss epsilon k s s' ->
  j s' = (j s + k)%nat
  /\ length (pA_heads s') = length (pA_heads s)
  /\ length (pB_heads s') = length (pB_heads s)
  /\ forall i, (i <= j s \/ j s' < i)%nat ->
               pA_heads s' !! i = pA_heads s !! i
               /\ pB_heads s' !! i = pB_heads s !! i.
Proof.
  induction 1 as [s|k s s1 s2 _ Eit _ IH].
  - repeat split; auto; lia.
  - destruct (iteration_inv s s1 Eit)
      as (a & b & ta & tb & _ & _ & EA & EB & Ej & _).
    destruct IH as (Hj & LA & LB & Hi).
    rewrite Ej in *. rewrite EA, EB in *. rewrite length_insert in LA, LB.
    split; [lia|]. split; [exact LA|]. split; [exact LB|].
    intros i Hrange. destruct (Hi i ltac:(lia)) as [-> ->].
    rewrite !list_lookup_insert_ne by lia. auto.
Qed.

Lemma passes_synced (k : nat) (s s' : state) :
  passes num_coin_toss epsilon k s s' -> (0 < k)%nat ->
  exists a b ta tb,
    pA_heads s' !! j s' = Some a /\ pB_heads s' !! j s' = Some b
    /\ theta_A s' = Some ta /\ theta_B s' = Some tb
    /\ (a == ta)%fl /\ (b == tb)%fl.
Proof.
  induction 1 as [s|k s s1 s2 _ Eit Hp IH]; [lia|]. intros _.
  destruct k as [|k].
  - inversion Hp; subst.
    destruct (iteration_inv s s2 Eit)
      as (a & b & ta & tb & HA & HB & EA & EB & Ej & TA & TB & Ha & Hb).
    exists a, b, ta, tb. rewrite Ej, EA, EB.
    rewrite !list_lookup_insert_eq by assumption. repeat split; assumption.
  - apply IH. lia.
Qed.

End Arrays.

(** X6.  A run that returns leaves the trace arrays with their hundred
    slots: slot 0 still holds the initial guess, the slots after the last
    one written still hold 0.0, and the trace has one point per pass
    besides the initial guess. *)
Theorem run_em_arrays (n : nat) (epsilon : Q) (heads : list nat)
        (a0 b0 : float64) (s : state) :
  run_em n epsilon heads a0 b0 = Returns s ->
  length (pA_heads s) = 100%nat /\ length (pB_heads s) = 100%nat
  /\ pA_heads s !! 0%nat = Some a0 /\ pB_heads s !! 0%nat = Some b0
  /\ (forall i, (j s < i < 100)%nat ->
                pA_heads s !! i = Some (Fin 0)
                /\ pB_heads s !! i = Some (Fin 0))
  /\ length (trace s) = S (j s)
  /\ trace s !! 0%nat = Some (a0, b0).
Proof.
  unfold run_em. intros H.
  destruct (loop_passes n epsilon _ _ _ H) as (k & Hp & _).
  destruct (passes_arrays n epsilon k _ _ Hp) as (Hj & LA & LB & Hi).
  simpl in Hj, LA, LB.
  assert (Hjs : (j s < 100)%nat).
  { destruct (passes_synced n epsilon k _ _ Hp) as (a & _ & _ & _ & Ea & _).
    - destruct (loop_passes n epsilon _ _ _ H) as (k' & Hp' & Hpos).
      specialize (Hpos eq_refl).
      destruct (passes_arrays n epsilon k' _ _ Hp') as (Hj' & _). lia.
    - apply lookup_lt_Some in Ea. lia. }
  split; [exact LA|]. split; [exact LB|].
  destruct (Hi 0%nat ltac:(simpl; lia)) as [E0A E0B].
  split; [now rewrite E0A|]. split; [now rewrite E0B|].
  split.
  - intros i Hrange. destruct (Hi i ltac:(lia)) as [-> ->].
    unfold init. cbn [pA_heads pB_heads].
    rewrite !list_lookup_insert_ne by lia.
    rewrite !lookup_replicate_2 by (unfold trace_len; lia). auto.
  - unfold trace. split.
    + rewrite length_zip_with, !length_take. lia.
    + apply lookup_zip_with_Some. exists a0, b0.
      rewrite !lookup_take_lt by lia. rewrite E0A, E0B. auto.
Qed.

Lemma run_em_arrays_witness :
  exists s,
    run_em 10 (1 # 1000) [5; 5; 5; 5; 5]%nat (Fin (1 # 2)) (Fin (1 # 2)) = Returns s
    /\ length (pA_heads s) = 100%nat
    /\ pA_heads s !! 0%nat = Some (Fin (1 # 2)).
Proof.
  assert (E : exists s,
             run_em 10 (1 # 1000) [5; 5; 5; 5; 5]%nat (Fin (1 # 2)) (Fin (1 # 2))
             = Returns s).
  { vm_compute. eexists. reflexivity. }
  destruct E as [s E]. exists s. split; [exact E|].
  destruct (run_em_arrays _ _ _ _ _ s E) as (LA & _ & E0 & _).
  split; [exact LA | exact E0].
Defined.

End TraceFacts.

(** ** The generated data set and its estimates *)

Module GenFacts.
Import MLE MLEFacts.

Lemma gen_loop_head_counts (ds : list draw) :
  forall (i : nat) (g : gen) (pre : list nat),
    length pre = i ->
    head_counts g = pre ++ replicate (length ds) 0%nat ->
    head_counts (gen_loop i ds g) = pre ++ map snd ds.
Proof.
  induction ds as [|d ds IH]; intros i g pre Hi Hg; simpl in *.
  - exact Hg.
  - replace (pre ++ snd d :: map snd ds)
      with ((pre ++ [snd d]) ++ map snd ds) by (now rewrite <- app_assoc).
    apply IH.
    + rewrite length_app. simpl. lia.
    + rewrite <- app_assoc. simpl. unfold gen_step.
      destruct (fst d =? 0)%nat; simpl; rewrite Hg; subst i;
        rewrite insert_app_r_alt by lia; rewrite Nat.sub_diag; reflexivity.
Qed.

(** X9.  The generation loop overwrites every slot of its two
    zero-initialised arrays: afterwards [head_counts] is the list of the
    drawn head counts, in order, [coin_choice] holds 0 where coin A was
    selected and 1 where coin B was, and [np.count_nonzero(coin_choice)]
    is the number of experiments of coin B. *)
Theorem generation_arrays (ds : list draw) :
  let g := gen_loop 0 ds (gen_init (length ds)) in
  head_counts g = map snd ds
  /\ coin_choice g = map flag ds
  /\ count_nonzero (coin_choice g) = length (filter selected_B ds)
  /\ (length ds - count_nonzero (coin_choice g))%nat
     = length (filter selected_A ds).
Proof.
  intros g.
  assert (EH : head_counts g = map snd ds).
  { unfold g. now rewrite (gen_loop_head_counts ds 0 _ []). }
  assert (EC : coin_choice g = map flag ds).
  { unfold g. now rewrite (gen_loop_coin_choice ds 0 _ []). }
  split; [exact EH|]. split; [exact EC|].
  rewrite EC, count_nonzero_flags.
  split; [reflexivity|]. pose proof (length_selected ds). lia.
Qed.

(** The two divisions on the accumulators of a data set in which both
    coins were selected. *)
Lemma mle_values (n : nat) (ds : list draw) :
  filter selected_A ds <> [] -> filter selected_B ds <> [] ->
  exists a b,
    compute_mle n ds = Returns (NpFloat a, NpFloat b)
    /\ (a == of_nat (sum_list (heads_of (filter selected_A ds)))
             / of_nat (length (filter selected_A ds) * n))%fl
    /\ (b == of_nat (sum_list (heads_of (filter selected_B ds)))
             / of_nat (length (filter selected_B ds) * n))%fl.
Proof.
  intros HA HB.
  destruct (mle_state ds) as (Hc & EA & EB).
  unfold compute_mle. rewrite Hc, EA, EB.
  destruct (accumulate_zero (heads_of (filter selected_A ds))) as (ya & Ea & Ha).
  { intros H. apply HA. now apply heads_of_nil. }
  destruct (accumulate_zero (heads_of (filter selected_B ds))) as (yb & Eb & Hb).
  { intros H. apply HB. now apply heads_of_nil. }
  rewrite Ea, Eb. cbn [truediv_int bind].
  eexists _, _. split; [reflexivity|].
  pose proof (length_selected ds) as Hlen.
  split.
  - replace ((Z.of_nat (length ds) - Z.of_nat (length (filter selected_B ds)))
             * Z.of_nat n)%Z
      with (Z.of_nat (length (filter selected_A ds) * n)) by lia.
    rewrite Ha. reflexivity.
  - rewrite <- Nat2Z.inj_mul. rewrite Hb. reflexivity.
Qed.

Lemma ratio_prob (s d : nat) :
  (0 < d)%nat -> (s <= d)%nat ->
  exists q, (of_nat s / of_nat d)%fl = Fin q /\ 0 <= q <= 1.
Proof.
  intros Hd Hs. unfold of_nat, of_Z.
  assert (Hpos : 0 < inject_Z (Z.of_nat d)) by (unfold Qlt; simpl; lia).
  rewrite Rational.fdiv_Fin_nonzero
    by (intros E; rewrite E in Hpos; discriminate).
  eexists. split; [reflexivity|]. split.
  - apply Qle_shift_div_l; [exact Hpos|]. rewrite Qmult_0_l.
    unfold Qle. simpl. lia.
  - apply Qle_shift_div_r; [exact Hpos|]. rewrite Qmult_1_l.
    unfold Qle. simpl. lia.
Qed.

Lemma sum_heads_bound (n : nat) (ds : list draw) :
  Forall (fun d => (snd d <= n)%nat) ds ->
  (sum_list (heads_of ds) <= length ds * n)%nat.
Proof.
  induction 1 as [|d ds Hd _ IH]; [simpl; lia|].
  unfold heads_of in *. cbn [map sum_list_with length].
  cbn beta in Hd. change (Datatypes.id (snd d)) with (snd d). lia.
Qed.

(** X10.  When both coins were selected, every head count is within the
    (positive) number of tosses, the two estimates are probabilities:
    numbers in [0,1]. *)
Theorem compute_mle_range (n : nat) (ds : list draw) :
  (0 < n)%nat -> Forall (fun d => (snd d <= n)%nat) ds ->
  filter selected_A ds <> [] -> filter selected_B ds <> [] ->
  exists a b qa qb,
    compute_mle n ds = Returns (NpFloat a, NpFloat b)
    /\ (a == Fin qa)%fl /\ (b == Fin qb)%fl
    /\ 0 <= qa <= 1 /\ 0 <= qb <= 1.
Proof.
  intros Hn Hr HA HB.
  destruct (mle_values n ds HA HB) as (a & b & E & Ea & Eb).
  assert (Hsub : forall P `{forall x, Decision (P x)},
             Forall (fun d => (snd d <= n)%nat) (filter P ds)).
  { intros P HP. apply List.Forall_forall. intros d Hin.
    rewrite List.Forall_forall in Hr. apply Hr.
    apply list_elem_of_In. apply list_elem_of_In in Hin.
    now apply list_elem_of_filter in Hin. }
  destruct (ratio_prob (sum_list (heads_of (filter selected_A ds)))
              (length (filter selected_A ds) * n)) as (qa & Qa & Ra).
  { destruct (filter selected_A ds); [congruence | simpl; nia]. }
  { apply sum_heads_bound. apply Hsub. }
  destruct (ratio_prob (sum_list (heads_of (filter selected_B ds)))
              (length (filter selected_B ds) * n)) as (qb & Qb & Rb).
  { destruct (filter selected_B ds); [congruence | simpl; nia]. }
  { apply sum_heads_bound. apply Hsub. }
  exists a, b, qa, qb. rewrite Qa in Ea. rewrite Qb in Eb. auto.
Qed.

Lemma compute_mle_range_witness :
  exists a b qa qb,
    compute_mle 10 example_draws = Returns (NpFloat a, NpFloat b)
    /\ (a == Fin qa)%fl /\ (b == Fin qb)%fl
    /\ 0 <= qa <= 1 /\ 0 <= qb <= 1.
Proof.
  apply compute_mle_range.
  - lia.
  - repeat constructor; simpl; lia.
  - vm_compute. discriminate.
  - vm_compute. discriminate.
Defined.

(** X11.  The estimates do not depend on the order of the experiments:
    on a rearrangement of a data set in which both coins were selected,
    the two divisions return the same values. *)
Theorem compute_mle_permutation (n : nat) (ds ds' : list draw) :
  Permutation ds ds' ->
  filter selected_A ds <> [] -> filter selected_B ds <> [] ->
  exists a b a' b',
    compute_mle n ds = Returns (NpFloat a, NpFloat b)
    /\ compute_mle n ds' = Returns (NpFloat a', NpFloat b')
    /\ (a == a')%fl /\ (b == b')%fl.
Proof.
  intros Hperm HA HB.
  assert (PA : Permutation (filter selected_A ds) (filter selected_A ds'))
    by now apply filter_Permutation.
  assert (PB : Permutation (filter selected_B ds) (filter selected_B ds'))
    by now apply filter_Permutation.
  assert (HA' : filter selected_A ds' <> []).
  { intros E. rewrite E in PA. apply Permutation_nil_r in PA. contradiction. }
  assert (HB' : filter selected_B ds' <> []).
  { intros E. rewrite E in PB. apply Permutation_nil_r in PB. contradiction. }
  destruct (mle_values n ds HA HB) as (a & b & E & Ea & Eb).
  destruct (mle_values n ds' HA' HB') as (a' & b' & E' & Ea' & Eb').
  exists a, b, a', b'. split; [exact E|]. split; [exact E'|].
  assert (SA : sum_list (heads_of (filter selected_A ds))
               = sum_list (heads_of (filter selected_A ds'))).
  { apply sum_list_with_Permutation_proper. unfold heads_of.
    now apply Permutation_map. }
  assert (SB : sum_list (heads_of (filter selected_B ds))
               = sum_list (heads_of (filter selected_B ds'))).
  { apply sum_list_with_Permutation_proper. unfold heads_of.
    now apply Permutation_map. }
  rewrite Ea, Eb, Ea', Eb', SA, SB.
  rewrite (Permutation_length PA), (Permutation_length PB).
  split; reflexivity.
Qed.

Lemma compute_mle_permutation_witness :
  exists a b a' b',
    compute_mle 10 example_draws = Returns (NpFloat a, NpFloat b)
    /\ compute_mle 10 (rev example_draws) = Returns (NpFloat a', NpFloat b')
    /\ (a == a')%fl /\ (b == b')%fl.
Proof.
  apply compute_mle_permutation.
  - apply Permutation_rev.
  - vm_compute. discriminate.
  - vm_compute. discriminate.
Defined.

End GenFacts.

(** ** The driver of the restarts and its report *)

Module DriverFacts.
Import EM EMFacts Restart RestartFacts TraceFacts.

(** [df.iloc[0]] and [df.iloc[-1]]: out of bounds on a frame without
    rows. *)
Definition iloc_first (l : list result) : outcome result :=
  match l with
  | [] => Raises IndexError
  | r :: _ => Returns r
  end.

Definition iloc_last (l : list result) : outcome result :=
  match last l with
  | Some r => Returns r
  | None => Raises IndexError
  end.

Section Driver.

Variable num_coin_toss : nat.
Variable epsilon : Q.
Variables theta_A_true theta_B_true : float64.

(** The last cell: sort, then report the first row as the best and the
    last row as the worst. *)
Definition report (heads : list nat) (guesses : list (float64 * float64))
  : outcome (result * result) :=
  let! df := run_multi_restart num_coin_toss epsilon theta_A_true theta_B_true
                               heads guesses in
  let! best := iloc_first df in
  let! worst := iloc_last df in
  Returns (best, worst).

Lemma restarts_app (heads : list nat) (gs1 gs2 : list (float64 * float64)) :
  restarts num_coin_toss epsilon heads (gs1 ++ gs2)
  = (let! rs1 := restarts num_coin_toss epsilon heads gs1 in
     let! rs2 := restarts num_coin_toss epsilon heads gs2 in
     Returns (rs1 ++ rs2)).
Proof.
  induction gs1 as [|g gs1 IH]; simpl.
  - now destruct (restarts _ _ _ gs2).
  - destruct (restart _ _ _ g) as [r| |]; simpl; try reflexivity.
    rewrite IH.
    destruct (restarts _ _ _ gs1) as [rs1| |]; simpl; try reflexivity.
    now destruct (restarts _ _ _ gs2).
Qed.

(** X12.  Nothing catches an exception of the E-M loop: when the
    restarts before it return and one restart raises, the driver raises
    the same exception; it returns no row, and the restarts after it do
    not matter. *)
Theorem run_multi_restart_aborts (heads : list nat)
        (gs1 gs2 : list (float64 * float64)) (g : float64 * float64)
        (rs1 : list (float64 * float64 * float64 * float64)) (e : exn) :
  restarts num_coin_toss epsilon heads gs1 = Returns rs1 ->
  restart num_coin_toss epsilon heads g = Raises e ->
  run_multi_restart num_coin_toss epsilon theta_A_true theta_B_true
                    heads (gs1 ++ g :: gs2) = Raises e.
Proof.
  intros E1 Eg. unfold run_multi_restart.
  rewrite restarts_app, E1. simpl. now rewrite Eg.
Qed.

(** A restart on a non-empty data set returns or raises [IndexError]. *)
Lemma restart_outcome (heads : list nat) (g : float64 * float64) :
  heads <> [] ->
  (exists a b, restart num_coin_toss epsilon heads g
               = Returns (fst g, snd g, a, b))
  \/ restart num_coin_toss epsilon heads g = Raises IndexError.
Proof.
  intros Hne. unfold restart, run_em.
  destruct (loop_outcome num_coin_toss epsilon (S trace_len)
              (init num_coin_toss heads (fst g) (snd g)))
    as [(k & s & E & Hp & _ & _ & _ & Hpos)|(E & _)].
  - apply init_wf.
  - now apply init_nonempty.
  - discriminate.
  - simpl. lia.
  - left. rewrite E. simpl.
    destruct (passes_synced num_coin_toss epsilon k _ _ Hp (Hpos eq_refl))
      as (a & b & ta & tb & _ & _ & -> & -> & _).
    eauto.
  - right. now rewrite E.
Qed.

Lemma restarts_outcome (heads : list nat) (guesses : list (float64 * float64)) :
  heads <> [] ->
  (exists rs, restarts num_coin_toss epsilon heads guesses = Returns rs
              /\ map (fun r => (fst (fst (fst r)), snd (fst (fst r)))) rs
                 = guesses)
  \/ restarts num_coin_toss epsilon heads guesses = Raises IndexError.
Proof.
  intros Hne. induction guesses as [|g gs IH]; simpl.
  - left. exists []. auto.
  - destruct (restart_outcome heads g Hne) as [(a & b & ->)| ->]; simpl;
      [|now right].
    destruct IH as [(rs & -> & Hmap)| ->]; simpl; [|now right].
    left. eexists. split; [reflexivity|]. simpl. rewrite Hmap.
    now destruct g.
Qed.

Lemma frame_inits (rs : list (float64 * float64 * float64 * float64)) :
  map (fun r => (pA_init r, pB_init r)) (frame theta_A_true theta_B_true rs)
  = map (fun r => (fst (fst (fst r)), snd (fst (fst r)))) rs.
Proof.
  unfold frame. rewrite map_map. apply map_ext.
  intros [[[a0 b0] a] b]. reflexivity.
Qed.

(** The cells for coefficients that fit: on a non-empty data set the
    driver either returns one row per drawn pair of initial guesses, each
    pair being the [pA_init], [pB_init] of one row, or it raises
    [IndexError]. *)
Lemma core_driver_outcome (heads : list nat)
        (guesses : list (float64 * float64)) :
  heads <> [] ->
  (exists rows,
      run_multi_restart num_coin_toss epsilon theta_A_true theta_B_true
                        heads guesses = Returns rows
      /\ length rows = length guesses
      /\ Permutation (map (fun r => (pA_init r, pB_init r)) rows) guesses)
  \/ run_multi_restart num_coin_toss epsilon theta_A_true theta_B_true
                       heads guesses = Raises IndexError.
Proof.
  intros Hne. unfold run_multi_restart.
  destruct (restarts_outcome heads guesses Hne) as [(rs & -> & Hmap)| ->];
    simpl; [|now right].
  left. eexists. split; [reflexivity|].
  pose proof (sort_values_perm (frame theta_A_true theta_B_true rs)) as Hperm.
  split.
  - rewrite (Permutation_length Hperm). unfold frame.
    rewrite length_map, <- Hmap. now rewrite length_map.
  - rewrite <- Hmap, <- frame_inits. now apply Permutation_map.
Qed.

Lemma ascending_refl (r : result) : ascending r r.
Proof.
  unfold ascending. destruct (acc r); simpl; auto. apply Qle_bool_iff.
  apply Qle_refl.
Qed.

Lemma sorted_last (l : list result) (w : result) :
  StronglySorted ascending l -> last l = Some w ->
  forall r, In r l -> ascending r w.
Proof.
  induction 1 as [|r0 l Hs IH Hall]; [discriminate|].
  intros Hlast r Hin. destruct l as [|r1 l].
  - injection Hlast as <-. destruct Hin as [<-|[]]. apply ascending_refl.
  - rewrite last_cons_cons in Hlast. destruct Hin as [<-|Hin].
    + rewrite List.Forall_forall in Hall. apply Hall.
      apply list_elem_of_In. eapply last_Some_elem_of. exact Hlast.
    + now apply IH.
Qed.

(** X14.  The report of the last cell.  When all restarts return and
    there is at least one, the row reported as best and the row reported
    as worst are rows of the sorted frame, no row has a smaller accuracy
    than the best and none a larger one than the worst ([nan] counting as
    larger than every number).  Without any restart, [df.iloc[0]] raises
    [IndexError]. *)
Theorem report_best_worst (heads : list nat)
        (guesses : list (float64 * float64)) :
  (forall rs,
      restarts num_coin_toss epsilon heads guesses = Returns rs ->
      guesses <> [] ->
      exists rows best worst,
        run_multi_restart num_coin_toss epsilon theta_A_true theta_B_true
                          heads guesses = Returns rows
        /\ report heads guesses = Returns (best, worst)
        /\ In best rows /\ In worst rows
        /\ forall r, In r rows -> ascending best r /\ ascending r worst)
  /\ report heads [] = Raises IndexError.
Proof.
  split; [|reflexivity].
  intros rs E Hne. unfold report, run_multi_restart. rewrite E. simpl.
  set (rows := sort_values (frame theta_A_true theta_B_true rs)).
  assert (Hs : StronglySorted ascending rows).
  { apply Sorted_StronglySorted; [exact ascending_trans|].
    apply sort_values_sorted. }
  assert (Hlen : length rows = length guesses).
  { unfold rows.
    rewrite (Permutation_length (sort_values_perm _)). unfold frame.
    rewrite length_map. exact (restarts_length _ _ heads guesses rs E). }
  destruct rows as [|best rows'] eqn:Erows.
  { destruct guesses; [congruence | discriminate]. }
  destruct (last (best :: rows')) as [worst|] eqn:El.
  2:{ apply last_None in El. discriminate. }
  exists (best :: rows'), best, worst.
  split; [reflexivity|]. unfold iloc_last. rewrite El. simpl.
  split; [reflexivity|]. split; [now left|].
  split.
  { apply (proj1 (list_elem_of_In (best :: rows') worst)).
    eapply last_Some_elem_of. exact El. }
  intros r Hin. split.
  - inversion Hs as [|? ? _ Hall]; subst. destruct Hin as [<-|Hin].
    + apply ascending_refl.
    + rewrite List.Forall_forall in Hall. now apply Hall.
  - now apply (sorted_last (best :: rows') worst Hs El).
Qed.

End Driver.

Lemma run_multi_restart_aborts_witness :
  run_multi_restart 10 (1 # 1000) (Fin (8 # 10)) (Fin (4 # 10))
                    []%nat ([] ++ (Fin (1 # 2), Fin (1 # 2)) :: [])
  = Raises TypeError.
Proof.
  apply (run_multi_restart_aborts 10 (1 # 1000) (Fin (8 # 10)) (Fin (4 # 10))
           [] [] [] (Fin (1 # 2), Fin (1 # 2)) []).
  - reflexivity.
  - reflexivity.
Defined.

Lemma report_best_worst_witness :
  exists rows best worst,
    run_multi_restart 10 (1 # 1000) (Fin (8 # 10)) (Fin (4 # 10))
                      [5; 5; 5; 5; 5]%nat
                      [(Fin 0, Fin 0); (Fin (1 # 2), Fin (1 # 2))]
    = Returns rows
    /\ report 10 (1 # 1000) (Fin (8 # 10)) (Fin (4 # 10))
              [5; 5; 5; 5; 5]%nat
              [(Fin 0, Fin 0); (Fin (1 # 2), Fin (1 # 2))]
       = Returns (best, worst)
    /\ In best rows /\ In worst rows.
Proof.
  assert (E : exists rs,
             restarts 10 (1 # 1000) [5; 5; 5; 5; 5]%nat
                      [(Fin 0, Fin 0); (Fin (1 # 2), Fin (1 # 2))]
             = Returns rs).
  { vm_compute. eexists. reflexivity. }
  destruct E as [rs E].
  destruct (proj1 (report_best_worst 10 (1 # 1000) (Fin (8 # 10)) (Fin (4 # 10))
                     _ _) rs E ltac:(discriminate))
    as (rows & best & worst & H1 & H2 & H3 & H4 & _).
  exists rows, best, worst. auto.
Defined.

End DriverFacts.

(** ** The test of the loop *)

Module StopFacts.
Import EM EMFacts TraceFacts.

Lemma fgt_threshold (x : float64) (e e' : Q) :
  e <= e' -> fgt x (Fin e') = true -> fgt x (Fin e) = true.
Proof.
  intros He. destruct x as [q| | |]; cbn [fgt]; auto.
  destruct (e' ?= q) eqn:E'; try discriminate. intros _.
  apply Qlt_alt in E'.
  destruct (e ?= q) eqn:E; [apply Qeq_alt in E | reflexivity
                            | apply Qgt_alt in E]; lra.
Qed.

Section Loop.

Variable n : nat.

Lemma loop_tolerance (e e' : Q) (fuel : nat) :
  e <= e' ->
  forall s0 s,
    loop n e fuel s0 = Returns s ->
    exists s' m, loop n e' fuel s0 = Returns s' /\ passes n e m s' s.
Proof.
  intros He. induction fuel as [|fuel IH]; intros s0 s H.
  - destruct (fgt (improvement s0) (Fin e')) eqn:E'.
    + apply (fgt_threshold _ e e' He) in E'. simpl in H.
      rewrite E' in H. discriminate.
    + exists s0. destruct (loop_passes n e _ _ _ H) as (m & Hp & _).
      exists m. split; [now apply loop_stop | exact Hp].
  - destruct (fgt (improvement s0) (Fin e')) eqn:E'.
    + pose proof (fgt_threshold _ e e' He E') as E. simpl in H |- *.
      rewrite E in H. rewrite E'.
      destruct (iteration n s0) as [s1| |]; simpl in *; try discriminate.
      now apply IH.
    + exists s0. destruct (loop_passes n e _ _ _ H) as (m & Hp & _).
      exists m. split; [now apply loop_stop | exact Hp].
Qed.

End Loop.

(** X17.  A looser tolerance stops the same run earlier.  If the run
    returns with tolerance [epsilon], then with any [epsilon' >= epsilon]
    (same data, same initial guesses) it returns too, after no more
    passes, and its trace is the beginning of the trace of the first
    run. *)
Theorem run_em_tolerance (n : nat) (epsilon epsilon' : Q) (hs : list nat)
        (a b : float64) (s : state) :
  epsilon <= epsilon' ->
  run_em n epsilon hs a b = Returns s ->
  exists s',
    run_em n epsilon' hs a b = Returns s'
    /\ (j s' <= j s)%nat
    /\ forall i, (i <= j s')%nat ->
                 pA_heads s' !! i = pA_heads s !! i
                 /\ pB_heads s' !! i = pB_heads s !! i.
Proof.
  intros He H. unfold run_em in *.
  destruct (loop_tolerance n epsilon epsilon' _ He _ _ H) as (s' & m & E & Hp).
  exists s'. split; [exact E|].
  destruct (passes_arrays n epsilon m s' s Hp) as (Hj & _ & _ & Hi).
  split; [lia|]. intros i Hle.
  destruct (Hi i (or_introl Hle)) as [-> ->]. auto.
Qed.

Lemma run_em_tolerance_witness :
  exists s s',
    run_em 10 (1 # 1000) [5; 5; 5; 5; 5]%nat (Fin (1 # 2)) (Fin (1 # 2))
    = Returns s
    /\ run_em 10 (1 # 10) [5; 5; 5; 5; 5]%nat (Fin (1 # 2)) (Fin (1 # 2))
       = Returns s'
    /\ (j s' <= j s)%nat.
Proof.
  assert (E : exists s,
             run_em 10 (1 # 1000) [5; 5; 5; 5; 5]%nat (Fin (1 # 2)) (Fin (1 # 2))
             = Returns s).
  { vm_compute. eexists. reflexivity. }
  destruct E as [s E]. exists s.
  destruct (run_em_tolerance 10 (1 # 1000) (1 # 10) [5; 5; 5; 5; 5]%nat
              (Fin (1 # 2)) (Fin (1 # 2)) s ltac:(lra) E) as (s' & E' & Hj & _).
  exists s'. auto.
Defined.

(** X19.  Without experiments the first pass fails.  On an empty data
    set the builtin [sum] of the expectation array is the integer 0, its
    subscript raises [TypeError] before anything is stored; with at least
    one restart the driver raises it too, whatever the guesses and
    [epsilon]. *)
Theorem run_em_empty (n : nat) (epsilon : Q) (a b : float64) :
  run_em n epsilon [] a b = Raises TypeError
  /\ forall tA tB g gs,
       Restart.run_multi_restart n epsilon tA tB [] (g :: gs)
       = Raises TypeError.
Proof.
  split; [reflexivity|]. intros tA tB [a' b'] gs. reflexivity.
Qed.

End StopFacts.


(** ** The conversion of the binomial coefficient *)

Module OverflowFacts.
Import EM EMFacts.

(** The coefficient of [h] heads among [n] tosses fits a double. *)
Definition fits (n h : nat) : Prop :=
  (Z.of_nat (comb n h) < Overflow.float_bound)%Z.

Definition all_fit (n : nat) (exps : list (nat * Z)) : Prop :=
  Forall (fun e => fits n (fst e)) exps.

Lemma fits_dec (n h : nat) : {fits n h} + {~ fits n h}.
Proof. apply Z_lt_dec. Qed.

Lemma float_of_int_fits (i : Z) :
  (0 <= i < Overflow.float_bound)%Z ->
  Overflow.float_of_int i = Returns (of_Z i).
Proof.
  intros [H0 H1]. unfold Overflow.float_of_int.
  rewrite Z.abs_eq by exact H0.
  destruct (Overflow.float_bound <=? i)%Z eqn:E; [|reflexivity].
  apply Z.leb_le in E. lia.
Qed.

Lemma float_of_int_overflow (i : Z) :
  (Overflow.float_bound <= i)%Z ->
  Overflow.float_of_int i = Raises OverflowError.
Proof.
  intros H. unfold Overflow.float_of_int.
  assert (H0 : (0 <= i)%Z).
  { assert (0 < Overflow.float_bound)%Z by reflexivity. lia. }
  rewrite Z.abs_eq by exact H0.
  apply Z.leb_le in H. now rewrite H.
Qed.

(** Within the range of a double the evaluator returns the value of the
    product; beyond it the conversion raises. *)
Lemma compute_likelihood_fits (h n : nat) (p : float64) :
  fits n h ->
  Overflow.compute_likelihood h n p = Returns (compute_likelihood h n p).
Proof.
  intros H. unfold Overflow.compute_likelihood.
  rewrite float_of_int_fits by (split; [lia | exact H]). reflexivity.
Qed.

Lemma compute_likelihood_overflow (h n : nat) (p : float64) :
  ~ fits n h -> Overflow.compute_likelihood h n p = Raises OverflowError.
Proof.
  intros H. unfold Overflow.compute_likelihood, fits in *.
  rewrite float_of_int_overflow by lia. reflexivity.
Qed.

Lemma comb_le_pow2 (n k : nat) : (comb n k <= 2 ^ n)%nat.
Proof.
  revert k. induction n as [|n IH]; intros [|k].
  - simpl. lia.
  - simpl. lia.
  - change (comb (S n) 0) with 1%nat.
    pose proof (Nat.pow_nonzero 2 (S n)). lia.
  - change (comb (S n) (S k)) with (comb n k + comb n (S k))%nat.
    pose proof (IH k). pose proof (IH (S k)).
    rewrite Nat.pow_succ_r'. lia.
Qed.

(** Up to 1023 tosses every coefficient fits. *)
Lemma fits_small (n h : nat) : (n <= 1023)%nat -> fits n h.
Proof.
  intros Hn. unfold fits.
  apply Z.le_lt_trans with (2 ^ 1023)%Z; [|reflexivity].
  apply Z.le_trans with (2 ^ Z.of_nat n)%Z.
  - pose proof (comb_le_pow2 n h) as H. apply Nat2Z.inj_le in H.
    rewrite Nat2Z.inj_pow in H. exact H.
  - apply Z.pow_le_mono_r; lia.
Qed.

Fixpoint factZ (n : nat) : Z :=
  match n with
  | O => 1
  | S m => Z.of_nat n * factZ m
  end.

Lemma factZ_fact (n : nat) : Z.of_nat (fact n) = factZ n.
Proof.
  induction n as [|n IH]; [reflexivity|].
  change (fact (S n)) with (S n * fact n)%nat.
  rewrite Nat2Z.inj_mul, IH. reflexivity.
Qed.

Lemma factZ_pos (n : nat) : (0 < factZ n)%Z.
Proof. rewrite <- factZ_fact. pose proof (lt_O_fact n). lia. Qed.

Lemma comb_factZ (n k : nat) :
  (k <= n)%nat ->
  (Z.of_nat (comb n k) * (factZ k * factZ (n - k)) = factZ n)%Z.
Proof.
  intros Hk. rewrite <- !factZ_fact, <- !Nat2Z.inj_mul.
  now rewrite comb_fact.
Qed.

Lemma central_1030 :
  (Overflow.float_bound * (factZ 515 * factZ 515) <= factZ 1030)%Z.
Proof. apply Z.leb_le. vm_compute. reflexivity. Qed.

(** At 1030 tosses the central coefficient is too large. *)
Lemma overflow_1030 : ~ fits 1030 515.
Proof.
  unfold fits. intros H.
  pose proof (comb_factZ 1030 515 ltac:(lia)) as E.
  change (1030 - 515)%nat with 515%nat in E.
  pose proof central_1030 as C. rewrite <- E in C.
  pose proof (factZ_pos 515) as P.
  apply Z.mul_le_mono_pos_r in C; [lia|].
  apply Z.mul_pos_pos; exact P.
Qed.

Section Loop.

Variable n : nat.

Lemma e_steps_fits (pAs pBs : list float64) (jj : nat)
      (exps : list (nat * Z)) :
  all_fit n exps ->
  Overflow.e_steps n pAs pBs jj exps = e_steps n pAs pBs jj exps.
Proof.
  induction 1 as [|[h t] exps Hh _ IH]; simpl; [reflexivity|].
  simpl in Hh.
  destruct (getitem pAs jj) as [pA| |]; simpl; try reflexivity.
  rewrite compute_likelihood_fits by exact Hh. simpl.
  destruct (getitem pBs jj) as [pB| |]; simpl; try reflexivity.
  rewrite compute_likelihood_fits by exact Hh. simpl.
  rewrite IH. reflexivity.
Qed.

Lemma e_steps_overflow (pAs pBs : list float64) (jj : nat) (pA pB : float64)
      (exps : list (nat * Z)) :
  pAs !! jj = Some pA -> pBs !! jj = Some pB ->
  ~ all_fit n exps ->
  Overflow.e_steps n pAs pBs jj exps = Raises OverflowError.
Proof.
  intros EA EB. induction exps as [|[h t] exps IH]; intros Hn.
  - exfalso. apply Hn. constructor.
  - simpl. unfold getitem. rewrite EA. simpl.
    destruct (fits_dec n h) as [Hh|Hh].
    + rewrite compute_likelihood_fits by exact Hh. simpl.
      rewrite EB. simpl.
      rewrite compute_likelihood_fits by exact Hh. simpl.
      rewrite IH; [reflexivity|].
      intros Hall. apply Hn. constructor; assumption.
    + rewrite compute_likelihood_overflow by exact Hh. reflexivity.
Qed.

Lemma iteration_fits (s : state) :
  all_fit n (zip (head_counts s) (tail_counts s)) ->
  Overflow.iteration n s = iteration n s.
Proof.
  intros H. unfold Overflow.iteration, iteration.
  now rewrite e_steps_fits.
Qed.

Lemma iteration_overflow (s : state) :
  wf s -> ~ all_fit n (zip (head_counts s) (tail_counts s)) ->
  Overflow.iteration n s = Raises OverflowError.
Proof.
  intros Hwf H. destruct (wf_lookup s Hwf) as (pA & pB & EA & EB).
  unfold Overflow.iteration.
  now rewrite (e_steps_overflow _ _ _ pA pB).
Qed.

Variable epsilon : Q.

Lemma loop_fits (fuel : nat) :
  forall s,
    all_fit n (zip (head_counts s) (tail_counts s)) ->
    Overflow.loop n epsilon fuel s = loop n epsilon fuel s.
Proof.
  induction fuel as [|fuel IH]; intros s H; simpl; [reflexivity|].
  destruct (fgt (improvement s) (Fin epsilon)); [|reflexivity].
  rewrite iteration_fits by exact H.
  destruct (iteration n s) as [s1| |] eqn:E; simpl; try reflexivity.
  apply IH. destruct (iteration_frame n s s1 E) as [-> ->]. exact H.
Qed.

Lemma all_fit_zip (hs : list nat) (f : nat -> Z) :
  Forall (fits n) hs <-> all_fit n (zip hs (map f hs)).
Proof.
  unfold all_fit. induction hs as [|h hs IH]; simpl.
  - split; constructor.
  - split; intros H; inversion H; subst; constructor; auto; now apply IH.
Qed.

Lemma init_all_fit (heads : list nat) (a b : float64) :
  Forall (fits n) heads <->
  all_fit n (zip (head_counts (init n heads a b))
                 (tail_counts (init n heads a b))).
Proof. unfold init. cbn [head_counts tail_counts]. apply all_fit_zip. Qed.

Lemma run_em_fits (heads : list nat) (a b : float64) :
  Forall (fits n) heads ->
  Overflow.run_em n epsilon heads a b = run_em n epsilon heads a b.
Proof.
  intros H. unfold Overflow.run_em, run_em. apply loop_fits.
  now apply init_all_fit.
Qed.

Lemma run_em_overflow (heads : list nat) (a b : float64) :
  ~ Forall (fits n) heads ->
  Overflow.run_em n epsilon heads a b = Raises OverflowError
  /\ Overflow.iteration n (init n heads a b) = Raises OverflowError.
Proof.
  intros H.
  assert (E : Overflow.iteration n (init n heads a b) = Raises OverflowError).
  { apply iteration_overflow; [apply init_wf|].
    intros Hall. apply H. now apply init_all_fit in Hall. }
  split; [|exact E].
  unfold Overflow.run_em. cbn [Overflow.loop].
  change (improvement (init n heads a b)) with PInf. cbn [fgt].
  now rewrite E.
Qed.

(** [passes k s s']: [k] passes of the loop body, each entered with the
    test true, lead from [s] to [s']. *)
Inductive passes : nat -> state -> state -> Prop :=
| passes_O (s : state) : passes 0 s s
| passes_S (k : nat) (s s1 s2 : state) :
    fgt (improvement s) (Fin epsilon) = true ->
    Overflow.iteration n s = Returns s1 ->
    passes k s1 s2 ->
    passes (S k) s s2.

Lemma passes_fits (k : nat) (s s' : state) :
  EMFacts.passes n epsilon k s s' ->
  all_fit n (zip (head_counts s) (tail_counts s)) ->
  passes k s s'.
Proof.
  induction 1 as [s|k s s1 s2 Ht Ei _ IH]; intros H; [constructor|].
  apply (passes_S k s s1 s2 Ht).
  - now rewrite iteration_fits.
  - apply IH. destruct (iteration_frame n s s1 Ei) as [-> ->]. exact H.
Qed.

(** A run of the cells with the conversion that returns is a run of
    the cells without it. *)
Lemma run_em_returns (heads : list nat) (a b : float64) (s : state) :
  Overflow.run_em n epsilon heads a b = Returns s ->
  Forall (fits n) heads /\ run_em n epsilon heads a b = Returns s.
Proof.
  intros H.
  destruct (List.Forall_dec (fits n) (fits_dec n) heads) as [Hf|Hf].
  - split; [exact Hf|]. now rewrite <- run_em_fits.
  - rewrite (proj1 (run_em_overflow heads a b Hf)) in H. discriminate.
Qed.

End Loop.

(** C5, as stated, fails from 1030 tosses on: [comb(1030, 515)] is an
    integer above the largest double, and its product with
    [pheads**obs] raises [OverflowError]. *)
Lemma compute_likelihood_overflows :
  (515 <= 1030)%nat /\ 0 <= 1 # 2 <= 1
  /\ Overflow.compute_likelihood 515 1030 (Fin (1 # 2)) = Raises OverflowError.
Proof.
  split; [lia|]. split; [split; discriminate|].
  apply compute_likelihood_overflow, overflow_1030.
Qed.

(** The Binomial mass as the specification writes it,
    [C(n,k) p^k (1-p)^(n-k)] with [C(n,k) = n! / (k! (n-k)!)], in the
    arithmetic of the doubles. *)
Definition binomial_mass (k n : nat) (p : float64) : float64 :=
  (of_nat (fact n / (fact k * fact (n - k))) * fpow p (Z.of_nat k)
   * fpow (Fin 1 - p) (Z.of_nat (n - k)))%fl.

Lemma binomial_mass_value (k n : nat) (p : float64) :
  (k <= n)%nat -> compute_likelihood k n p = binomial_mass k n p.
Proof.
  intros Hk. unfold compute_likelihood, binomial_mass.
  rewrite <- comb_quotient by exact Hk.
  replace (Z.of_nat n - Z.of_nat k)%Z with (Z.of_nat (n - k)) by lia.
  reflexivity.
Qed.

(** C5, amended.  For [0 <= k <= n] and a probability [p]: when the
    coefficient [C(n,k)] fits a double, as it does for every [n <= 1023],
    [compute_likelihood] returns the Binomial mass
    [C(n,k) p^k (1-p)^(n-k)], which is the number 0 at [p = 0] with
    [k > 0] and at [p = 1] with [k < n]; when the coefficient does not
    fit, it raises [OverflowError]. *)
Theorem compute_likelihood_range (k n : nat) (p : Q) :
  (k <= n)%nat -> 0 <= p <= 1 ->
  (fits n k ->
   Overflow.compute_likelihood k n (Fin p)
   = Returns (binomial_mass k n (Fin p))
   /\ ((0 < k)%nat -> p == 0 -> (binomial_mass k n (Fin p) == Fin 0)%fl)
   /\ ((k < n)%nat -> p == 1 -> (binomial_mass k n (Fin p) == Fin 0)%fl))
  /\ (~ fits n k ->
      Overflow.compute_likelihood k n (Fin p) = Raises OverflowError)
  /\ ((n <= 1023)%nat -> fits n k).
Proof.
  intros Hk Hp. split; [|split].
  - intros Hf. rewrite compute_likelihood_fits by exact Hf.
    rewrite <- binomial_mass_value by exact Hk.
    destruct (binomial_value k n p Hk Hp) as (_ & Z0 & Z1).
    split; [reflexivity|]. split; assumption.
  - apply compute_likelihood_overflow.
  - apply fits_small.
Qed.

Lemma compute_likelihood_range_witness :
  Overflow.compute_likelihood 5 10 (Fin (1 # 2))
  = Returns (binomial_mass 5 10 (Fin (1 # 2))).
Proof.
  apply (compute_likelihood_range 5 10 (1 # 2)).
  - lia.
  - split; discriminate.
  - vm_compute. reflexivity.
Defined.

(** C2, as stated, fails: from [theta = (1, 1)] the first pass divides 0
    by 0, the improvement is [nan], the test [improvement > epsilon] is
    false and the run returns: the threshold is not met, and nothing is
    raised. *)
Lemma run_em_nan_return :
  let o := Overflow.run_em 10 (1 # 1000) [5; 9; 8; 4; 7]%nat (Fin 1) (Fin 1) in
  ~ (converged (1 # 1000) o \/ exists e, o = Raises e).
Proof.
  intros o.
  assert (E : exists s, o = Returns s /\ improvement s = NaN).
  { unfold o. vm_compute. eexists. split; reflexivity. }
  destruct E as (s & Es & En).
  intros [(s' & Es' & q & Eq & _)|(e & Ee)]; rewrite Es in *.
  - injection Es' as <-. congruence.
  - discriminate.
Qed.

(** C2, amended.  On a non-empty data set the run ends within a hundred
    passes, whatever the start and [epsilon].  When every binomial
    coefficient of the data fits a double, either it returns after [k]
    passes, [1 <= k <= 99], the test [improvement > epsilon] having become
    false (the improvement is at most [epsilon], or it is [nan]), or 99
    passes complete, the test still holds and the hundredth pass raises
    [IndexError] at the store into slot 100 of the trace arrays.  When a
    coefficient does not fit, the first pass raises [OverflowError].  The
    fuel is never exhausted and nothing else is raised. *)
Theorem run_em_outcome (n : nat) (epsilon : Q) (heads : list nat)
        (pA0 pB0 : float64) :
  heads <> [] ->
  let s0 := init n heads pA0 pB0 in
  let o := Overflow.run_em n epsilon heads pA0 pB0 in
  (Forall (fits n) heads
   /\ ((exists k s, o = Returns s /\ passes n epsilon k s0 s
                    /\ (1 <= k <= 99)%nat /\ j s = k /\ stopped epsilon s)
       \/ (o = Raises IndexError
           /\ exists s, passes n epsilon 99 s0 s
                        /\ fgt (improvement s) (Fin epsilon) = true
                        /\ Overflow.iteration n s = Raises IndexError)))
  \/ (~ Forall (fits n) heads
      /\ o = Raises OverflowError
      /\ Overflow.iteration n s0 = Raises OverflowError).
Proof.
  intros Hne s0 o.
  destruct (List.Forall_dec (fits n) (fits_dec n) heads) as [Hf|Hf].
  - left. split; [exact Hf|].
    pose proof (proj1 (init_all_fit n heads pA0 pB0) Hf) as Hall.
    unfold o. rewrite run_em_fits by exact Hf. unfold run_em. fold s0.
    destruct (loop_outcome n epsilon (S trace_len) s0)
      as [(k & s & E & Hp & Hj & Hlt & Hstop & Hpos)
         |(E & k & s & Hp & Hj & Hc & Ht & Ei)].
    + apply init_wf.
    + now apply init_nonempty.
    + discriminate.
    + simpl. lia.
    + left. exists k, s. specialize (Hpos eq_refl).
      simpl in Hj. unfold trace_len in Hlt.
      split; [exact E|]. split; [now apply passes_fits|].
      repeat split; auto; lia.
    + right. split; [exact E|]. exists s.
      simpl in Hj. unfold trace_len in Hc.
      replace 99%nat with k by lia.
      split; [now apply passes_fits|]. split; [exact Ht|].
      rewrite iteration_fits; [exact Ei|].
      destruct (passes_frame n epsilon k s0 s Hp) as [-> ->]. exact Hall.
  - right. split; [exact Hf|]. now apply run_em_overflow.
Qed.

Lemma run_em_outcome_witness :
  let heads := [5; 5; 5; 5; 5]%nat in
  let s0 := init 10 heads (Fin (1 # 2)) (Fin (1 # 2)) in
  let o := Overflow.run_em 10 (1 # 1000) heads (Fin (1 # 2)) (Fin (1 # 2)) in
  (Forall (fits 10) heads
   /\ ((exists k s, o = Returns s /\ passes 10 (1 # 1000) k s0 s
                    /\ (1 <= k <= 99)%nat /\ j s = k
                    /\ stopped (1 # 1000) s)
       \/ (o = Raises IndexError
           /\ exists s, passes 10 (1 # 1000) 99 s0 s
                        /\ fgt (improvement s) (Fin (1 # 1000)) = true
                        /\ Overflow.iteration 10 s = Raises IndexError)))
  \/ (~ Forall (fits 10) heads
      /\ o = Raises OverflowError
      /\ Overflow.iteration 10 s0 = Raises OverflowError).
Proof.
  apply run_em_outcome. discriminate.
Defined.

Import Rational.

(** C9, as stated, fails at the boundary: from [theta = (0, 1/2)] every
    experiment with a head has responsibility 0 for coin A, the expected
    counts of coin A sum to 0, and the new [theta_A] is 0/0. *)
Lemma pass_leaves_range :
  let s := init 10 [5; 9; 8; 4; 7]%nat (Fin 0) (Fin (1 # 2)) in
  pA_heads s !! j s = Some (Fin 0) /\ pB_heads s !! j s = Some (Fin (1 # 2))
  /\ exists s', Overflow.iteration 10 s = Returns s'
                /\ pA_heads s' !! (j s + 1)%nat = Some NaN
                /\ ~ is_prob NaN.
Proof.
  intros s. split; [reflexivity|]. split; [reflexivity|].
  assert (E : exists s', Overflow.iteration 10 s = Returns s'
                         /\ pA_heads s' !! (j s + 1)%nat = Some NaN).
  { unfold s. vm_compute. eexists. split; reflexivity. }
  destruct E as (s' & E1 & E2). exists s'. repeat split; auto.
  intros (q & Hq & _). discriminate.
Qed.

(** C9, amended.  From current parameters in [0,1], on a non-empty data
    set of head counts within the number of tosses, a pass other than the
    hundredth stores for each coin either a probability in [0,1] or
    [nan], when every binomial coefficient of the data fits a double;
    when one does not, the pass raises [OverflowError] and stores
    nothing. *)
Theorem pass_range (n : nat) (s : state) (pa pb : Q) :
  wf s -> (j s + 1 < trace_len)%nat ->
  pA_heads s !! j s = Some (Fin pa) -> pB_heads s !! j s = Some (Fin pb) ->
  head_counts s <> [] -> in_range n (head_counts s) ->
  tail_counts s = map (tails n) (head_counts s) ->
  0 <= pa <= 1 -> 0 <= pb <= 1 ->
  (Forall (fits n) (head_counts s) ->
   exists s' a b,
     Overflow.iteration n s = Returns s'
     /\ pA_heads s' !! (j s + 1)%nat = Some a
     /\ pB_heads s' !! (j s + 1)%nat = Some b
     /\ prob_or_nan a /\ prob_or_nan b)
  /\ (~ Forall (fits n) (head_counts s) ->
      Overflow.iteration n s = Raises OverflowError).
Proof.
  intros Hwf Hj EA EB Hne Hr Ht Ha Hb.
  assert (Hz : zip (head_counts s) (tail_counts s) <> []).
  { rewrite Ht. destruct (head_counts s); [congruence | discriminate]. }
  split.
  - intros Hf.
    exists (next n s (Fin pa) (Fin pb)). eexists _, _.
    split.
    { rewrite iteration_fits; [now apply iteration_returns|].
      rewrite Ht. now apply all_fit_zip. }
    destruct Hwf as (LA & LB & _). unfold next. cbn [pA_heads pB_heads].
    rewrite !list_lookup_insert_eq by lia.
    split; [reflexivity|]. split; [reflexivity|].
    rewrite Ht. fold (experiments n (head_counts s)).
    destruct (List.Forall_Exists_dec (fun h => ~ lik n h pa + lik n h pb == 0)
                (fun h => match Qeq_dec (lik n h pa + lik n h pb) 0 with
                          | left e => right (fun f => f e)
                          | right ne => left ne
                          end) (head_counts s)) as [Hreg|Hex].
    + destruct (regular_range n pa pb (head_counts s) Hr Ha Hb Hreg)
        as (RA & RB & _). split; [exact RA | exact RB].
    + assert (Hirr : ~ regular n pa pb (head_counts s)).
      { intros Hreg. unfold regular in Hreg.
        apply List.Exists_exists in Hex. destruct Hex as (h & Hin & Hz').
        rewrite List.Forall_forall in Hreg. exact (Hz' (Hreg h Hin)). }
      destruct (irregular_nan n pa pb _ Hr Ha Hb Hirr) as [-> ->].
      split; now left.
  - intros Hf. apply iteration_overflow; [exact Hwf|].
    rewrite Ht. intros Hall. apply Hf. now apply all_fit_zip in Hall.
Qed.

Lemma pass_range_witness :
  let s := init 10 [5; 9]%nat (Fin (1 # 2)) (Fin (1 # 3)) in
  exists s' a b,
    Overflow.iteration 10 s = Returns s'
    /\ pA_heads s' !! 1%nat = Some a
    /\ pB_heads s' !! 1%nat = Some b
    /\ prob_or_nan a /\ prob_or_nan b.
Proof.
  intros s.
  apply (pass_range 10 s (1 # 2) (1 # 3)).
  - apply init_wf.
  - unfold trace_len. simpl. lia.
  - reflexivity.
  - reflexivity.
  - discriminate.
  - repeat constructor; simpl; lia.
  - reflexivity.
  - split; discriminate.
  - split; discriminate.
  - repeat constructor; vm_compute; reflexivity.
Defined.

Import Restart RestartFacts TraceFacts.

Section Driver.

Variable n : nat.
Variable epsilon : Q.
Variables theta_A_true theta_B_true : float64.

(** How a run ends: it returns with [theta_A] and [theta_B] assigned, or
    it raises. *)
Lemma run_em_ends (heads : list nat) (a b : float64) :
  (exists s ta tb,
      Overflow.run_em n epsilon heads a b = Returns s
      /\ theta_A s = Some ta /\ theta_B s = Some tb)
  \/ (exists e,
         Overflow.run_em n epsilon heads a b = Raises e
         /\ (heads <> [] ->
             (e = IndexError /\ Forall (fits n) heads)
             \/ (e = OverflowError /\ ~ Forall (fits n) heads))).
Proof.
  destruct (List.Forall_dec (fits n) (fits_dec n) heads) as [Hf|Hf].
  - rewrite run_em_fits by exact Hf.
    destruct heads as [|h hs].
    + right. exists TypeError. split; [reflexivity | congruence].
    + unfold run_em.
      destruct (loop_outcome n epsilon (S trace_len) (init n (h :: hs) a b))
        as [(k & s & E & Hp & _ & _ & _ & Hpos)|(E & _)].
      * apply init_wf.
      * discriminate.
      * discriminate.
      * simpl. lia.
      * left. specialize (Hpos eq_refl).
        destruct (passes_synced n epsilon k _ _ Hp Hpos)
          as (_ & _ & ta & tb & _ & _ & TA & TB & _).
        exists s, ta, tb. auto.
      * right. exists IndexError. split; [exact E|]. intros _. now left.
  - right. exists OverflowError.
    split; [apply (run_em_overflow n epsilon heads a b Hf)|].
    intros _. now right.
Qed.

Lemma restart_ends (heads : list nat) (g : float64 * float64) :
  (exists s ta tb,
      Overflow.run_em n epsilon heads (fst g) (snd g) = Returns s
      /\ theta_A s = Some ta /\ theta_B s = Some tb
      /\ Overflow.restart n epsilon heads g = Returns (fst g, snd g, ta, tb))
  \/ (exists e,
         Overflow.run_em n epsilon heads (fst g) (snd g) = Raises e
         /\ Overflow.restart n epsilon heads g = Raises e).
Proof.
  unfold Overflow.restart.
  destruct (run_em_ends heads (fst g) (snd g))
    as [(s & ta & tb & E & TA & TB)|(e & E & _)]; rewrite E; simpl.
  - left. exists s, ta, tb. rewrite TA, TB. auto.
  - right. exists e. auto.
Qed.

(** The row comes from a run that returned: its guesses started the run
    and its outputs are the last [theta_A], [theta_B] the run assigned. *)
Definition from_run (heads : list nat)
           (r : float64 * float64 * float64 * float64) : Prop :=
  let '(a0, b0, a, b) := r in
  exists s, Overflow.run_em n epsilon heads a0 b0 = Returns s
            /\ theta_A s = Some a /\ theta_B s = Some b.

Lemma restarts_ends (heads : list nat) (guesses : list (float64 * float64)) :
  (exists rs,
      Overflow.restarts n epsilon heads guesses = Returns rs
      /\ map (fun r => (fst (fst (fst r)), snd (fst (fst r)))) rs = guesses
      /\ Forall (from_run heads) rs)
  \/ (exists e g,
         Overflow.restarts n epsilon heads guesses = Raises e
         /\ In g guesses
         /\ Overflow.run_em n epsilon heads (fst g) (snd g) = Raises e).
Proof.
  induction guesses as [|g gs IH]; simpl.
  - left. exists []. auto.
  - destruct (restart_ends heads g)
      as [(s & ta & tb & E & TA & TB & ->)|(e & E & ->)]; simpl.
    + destruct IH as [(rs & -> & Hmap & Hall)|(e & g' & -> & Hin & E')]; simpl.
      * left. eexists. split; [reflexivity|]. simpl. rewrite Hmap.
        split; [now destruct g|]. constructor; [|exact Hall].
        exists s. auto.
      * right. exists e, g'. auto.
    + right. exists e, g. auto.
Qed.

Definition row_from_run (heads : list nat) (r : result) : Prop :=
  exists s, Overflow.run_em n epsilon heads (pA_init r) (pB_init r) = Returns s
            /\ theta_A s = Some (pA_out r) /\ theta_B s = Some (pB_out r).

Lemma frame_rows (heads : list nat)
      (rs : list (float64 * float64 * float64 * float64)) :
  Forall (from_run heads) rs ->
  Forall (fun r => row_from_run heads r
                   /\ acc r = (fabs (pA_out r - theta_A_true)
                               + fabs (pB_out r - theta_B_true))%fl)
         (frame theta_A_true theta_B_true rs).
Proof.
  intros H. unfold frame. apply List.Forall_map.
  eapply List.Forall_impl; [|exact H]. cbn beta.
  intros [[[a0 b0] a] b] Hr. split; [exact Hr | reflexivity].
Qed.

(** C8, as stated, fails where a restart raises: nothing catches the
    exception, so the driver returns no results at all.  On an empty
    data set the first pass of the first restart raises [TypeError]. *)
Lemma run_multi_restart_raises :
  ~ exists rows,
      Overflow.run_multi_restart 10 (1 # 1000) (Fin (4 # 5)) (Fin (2 # 5)) []
                                 [(Fin (3 # 5), Fin (1 # 2))]
      = Returns rows.
Proof. intros [rows E]. vm_compute in E. discriminate. Qed.

(** C8, amended.  Either every restart's run returns, and then the
    driver returns one row per restart, in ascending order of the
    accuracy (rows whose accuracy is [nan] come last, as [sort_values]
    places them): the guesses of the rows are the drawn guesses, each
    row holds the last [theta_A], [theta_B] of the run from its guesses
    and the accuracy [|pA_out - theta_A_true| + |pB_out - theta_B_true|];
    or the run of one restart raises, and the driver raises that
    exception and returns nothing. *)
Theorem run_multi_restart_ranked (heads : list nat)
        (guesses : list (float64 * float64)) :
  (exists rows,
      Overflow.run_multi_restart n epsilon theta_A_true theta_B_true
                                 heads guesses = Returns rows
      /\ length rows = length guesses
      /\ Permutation (map (fun r => (pA_init r, pB_init r)) rows) guesses
      /\ Forall (fun r => row_from_run heads r
                          /\ acc r = (fabs (pA_out r - theta_A_true)
                                      + fabs (pB_out r - theta_B_true))%fl)
                rows
      /\ StronglySorted ascending rows
      /\ (forall (i k : nat) (r r' : result) (x y : Q),
             (i < k)%nat -> rows !! i = Some r -> rows !! k = Some r' ->
             acc r = Fin x -> acc r' = Fin y -> x <= y))
  \/ (exists e g,
         Overflow.run_multi_restart n epsilon theta_A_true theta_B_true
                                    heads guesses = Raises e
         /\ In g guesses
         /\ Overflow.run_em n epsilon heads (fst g) (snd g) = Raises e).
Proof.
  unfold Overflow.run_multi_restart.
  destruct (restarts_ends heads guesses)
    as [(rs & -> & Hmap & Hall)|(e & g & -> & Hin & E)]; simpl.
  - left. eexists. split; [reflexivity|].
    destruct (frame_sorted theta_A_true theta_B_true rs)
      as (Hlen & Hperm & Hs).
    split.
    { rewrite Hlen, <- Hmap. now rewrite length_map. }
    split.
    { rewrite <- Hmap, <- (DriverFacts.frame_inits theta_A_true theta_B_true).
      now apply Permutation_map. }
    split.
    { apply (Permutation_Forall (Permutation_sym Hperm)).
      now apply frame_rows. }
    split; [exact Hs|]. now apply sorted_numeric.
  - right. exists e, g. auto.
Qed.

(** X13.  On a non-empty data set the driver returns one row per drawn
    pair of initial guesses, or it raises [IndexError] (a restart reached
    its hundredth pass; every binomial coefficient of the data fits a
    double), or it raises [OverflowError] (a coefficient does not fit);
    it raises nothing else. *)
Theorem driver_outcome (heads : list nat)
        (guesses : list (float64 * float64)) :
  heads <> [] ->
  let o := Overflow.run_multi_restart n epsilon theta_A_true theta_B_true
                                      heads guesses in
  (exists rows, o = Returns rows /\ length rows = length guesses)
  \/ (o = Raises IndexError /\ Forall (fits n) heads)
  \/ (o = Raises OverflowError /\ ~ Forall (fits n) heads /\ guesses <> []).
Proof.
  intros Hne o. unfold o, Overflow.run_multi_restart.
  destruct (restarts_ends heads guesses)
    as [(rs & -> & Hmap & _)|(e & g & -> & Hin & E)]; simpl.
  - left. eexists. split; [reflexivity|].
    destruct (frame_sorted theta_A_true theta_B_true rs) as (Hlen & _).
    rewrite Hlen, <- Hmap. now rewrite length_map.
  - right.
    destruct (run_em_ends heads (fst g) (snd g))
      as [(s & _ & _ & E' & _)|(e' & E' & He)]; rewrite E' in E;
      [discriminate|].
    injection E as <-.
    destruct (He Hne) as [[-> Hf]|[-> Hf]]; [left | right]; auto.
    split; [reflexivity|]. split; [exact Hf|].
    intros ->. destruct Hin.
Qed.

End Driver.

Lemma run_multi_restart_ranked_witness :
  exists rows,
    Overflow.run_multi_restart 10 (1 # 1000) (Fin (4 # 5)) (Fin (2 # 5))
                               [5; 5; 5; 5; 5]%nat
                               [(Fin 0, Fin 0); (Fin (1 # 2), Fin (1 # 2))]
    = Returns rows
    /\ length rows = 2%nat
    /\ StronglySorted ascending rows.
Proof.
  destruct (run_multi_restart_ranked 10 (1 # 1000) (Fin (4 # 5)) (Fin (2 # 5))
              [5; 5; 5; 5; 5]%nat
              [(Fin 0, Fin 0); (Fin (1 # 2), Fin (1 # 2))])
    as [(rows & E & Hlen & _ & _ & Hs & _)|(e & g & E & _)].
  - exists rows. auto.
  - vm_compute in E. discriminate.
Defined.

Lemma driver_outcome_witness :
  let o := Overflow.run_multi_restart 10 (1 # 1000) (Fin (4 # 5)) (Fin (2 # 5))
                                      [5; 5]%nat [(Fin (1 # 2), Fin (1 # 2))] in
  (exists rows, o = Returns rows /\ length rows = 1%nat)
  \/ (o = Raises IndexError /\ Forall (fits 10) [5; 5]%nat)
  \/ (o = Raises OverflowError /\ ~ Forall (fits 10) [5; 5]%nat
      /\ [(Fin (1 # 2), Fin (1 # 2))] <> []).
Proof.
  apply (driver_outcome 10 (1 # 1000) (Fin (4 # 5)) (Fin (2 # 5))).
  discriminate.
Defined.

(** X21.  Up to 1023 tosses per experiment no binomial coefficient is
    too large for a double: the run never raises [OverflowError], and it
    ends as the cells without the conversion do. *)
Theorem run_em_small (n : nat) (epsilon : Q) (heads : list nat)
        (a b : float64) :
  (n <= 1023)%nat ->
  Overflow.run_em n epsilon heads a b = run_em n epsilon heads a b
  /\ Overflow.run_em n epsilon heads a b <> Raises OverflowError.
Proof.
  intros Hn.
  assert (Hf : Forall (fits n) heads).
  { apply List.Forall_forall. intros h _. now apply fits_small. }
  split; [now apply run_em_fits|].
  destruct heads as [|h hs].
  - rewrite run_em_fits by exact Hf. discriminate.
  - destruct (run_em_ends n epsilon (h :: hs) a b)
      as [(s & _ & _ & -> & _)|(e & -> & He)]; [discriminate|].
    destruct (He ltac:(discriminate)) as [[-> _]|[_ Hnf]];
      [discriminate | contradiction].
Qed.

Lemma run_em_small_witness :
  Overflow.run_em 10 (1 # 1000) [5; 9]%nat (Fin (3 # 5)) (Fin (1 # 2))
  <> Raises OverflowError.
Proof.
  apply (run_em_small 10 (1 # 1000) [5; 9]%nat (Fin (3 # 5)) (Fin (1 # 2))).
  lia.
Defined.

End OverflowFacts.

(** ** Equal initial guesses *)

Module EqualStart.
Import EM EMFacts OverflowFacts.

Section Loop.

Variable n : nat.
Variable epsilon : Q.

(** The arrays and the last estimates of the two coins coincide. *)
Definition coincide (s : state) : Prop :=
  pA_heads s = pB_heads s /\ theta_A s = theta_B s.

Lemma e_steps_same (l : list float64) (jj : nat) (exps : list (nat * Z))
      (es : list row * list row) :
  e_steps n l l jj exps = Returns es -> fst es = snd es.
Proof.
  revert es. induction exps as [|[h t] exps IH]; simpl; intros es.
  - now intros [= <-].
  - destruct (getitem l jj) as [p| |]; simpl; try discriminate.
    destruct (e_steps n l l jj exps) as [tl| |]; simpl; try discriminate.
    intros [= <-]. simpl. now rewrite (IH tl eq_refl).
Qed.

Lemma iteration_coincide (s s' : state) :
  pA_heads s = pB_heads s -> iteration n s = Returns s' -> coincide s'.
Proof.
  intros H. unfold iteration. rewrite <- H.
  destruct (e_steps _ _ _ _ _) as [es| |] eqn:E; simpl; try discriminate.
  apply e_steps_same in E. rewrite <- E.
  destruct (py_theta (fst es)) as [a| |]; simpl; try discriminate.
  destruct (setitem (pA_heads s) _ a) as [pAs| |]; simpl; try discriminate.
  destruct (getitem pAs (j s + 1)); simpl; try discriminate.
  destruct (getitem pAs (j s)); simpl; try discriminate.
  intros [= <-]. split; reflexivity.
Qed.

Lemma loop_coincide (fuel : nat) :
  forall s s',
    pA_heads s = pB_heads s -> (fgt (improvement s) (Fin epsilon) = true) ->
    loop n epsilon fuel s = Returns s' -> coincide s'.
Proof.
  induction fuel as [|fuel IH]; intros s s' H Ht; simpl; rewrite Ht;
    try discriminate.
  destruct (iteration n s) as [s1| |] eqn:E; simpl; try discriminate.
  destruct (iteration_coincide s s1 H E) as [H1 T1].
  intros Hl.
  destruct (fgt (improvement s1) (Fin epsilon)) eqn:Ht1.
  - now apply (IH s1).
  - rewrite loop_stop in Hl by exact Ht1. injection Hl as <-.
    split; assumption.
Qed.

End Loop.

(** X8.  Equal initial guesses never separate the coins: when the run
    started from [pA_heads[0] = pB_heads[0]] returns, the two trace
    arrays are equal slot by slot and the final [theta_A] and [theta_B]
    are equal, whatever the data set and [epsilon]. *)
Theorem equal_start_coincide (n : nat) (epsilon : Q) (heads : list nat)
        (p : float64) (s : state) :
  Overflow.run_em n epsilon heads p p = Returns s ->
  pA_heads s = pB_heads s /\ theta_A s = theta_B s.
Proof.
  intros H. apply run_em_returns in H as [_ H]. unfold run_em in H.
  apply (loop_coincide n epsilon (S trace_len) (init n heads p p) s);
    [reflexivity | reflexivity | exact H].
Qed.

Lemma equal_start_coincide_witness :
  exists s,
    Overflow.run_em 10 (1 # 1000) [5; 5; 5; 5; 5]%nat (Fin (1 # 2)) (Fin (1 # 2))
    = Returns s
    /\ pA_heads s = pB_heads s.
Proof.
  assert (E : exists s,
             Overflow.run_em 10 (1 # 1000) [5; 5; 5; 5; 5]%nat
                             (Fin (1 # 2)) (Fin (1 # 2)) = Returns s).
  { vm_compute. eexists. reflexivity. }
  destruct E as [s E]. exists s. split; [exact E|].
  exact (proj1 (equal_start_coincide _ _ _ _ s E)).
Defined.

End EqualStart.

(** ** The likelihood and the responsibilities are probabilities *)

Module LikelihoodFacts.
Import EM Rational Degenerate OverflowFacts.

Section Binomial.

Variable n : nat.

Lemma Qsum_app (l1 l2 : list Q) : Qsum (l1 ++ l2) == Qsum l1 + Qsum l2.
Proof.
  induction l1 as [|q l1 IH]; simpl app.
  - unfold Qsum at 2. simpl. ring.
  - rewrite !Qsum_cons, IH. ring.
Qed.

Lemma Qsum_map_ext (f g : nat -> Q) (l : list nat) :
  (forall k, f k == g k) -> Qsum (map f l) == Qsum (map g l).
Proof.
  intros H. induction l as [|k l IH]; cbn [map]; [reflexivity|].
  now rewrite !Qsum_cons, IH, H.
Qed.

Lemma Qsum_map_plus (f g : nat -> Q) (l : list nat) :
  Qsum (map (fun k => f k + g k) l) == Qsum (map f l) + Qsum (map g l).
Proof.
  induction l as [|k l IH]; cbn [map].
  - unfold Qsum. simpl. ring.
  - rewrite !Qsum_cons, IH. ring.
Qed.

Lemma Qsum_map_scal (c : Q) (f : nat -> Q) (l : list nat) :
  Qsum (map (fun k => c * f k) l) == c * Qsum (map f l).
Proof.
  induction l as [|k l IH]; cbn [map].
  - unfold Qsum. simpl. ring.
  - rewrite !Qsum_cons, IH. ring.
Qed.

Lemma Qsum_single (q : Q) : Qsum [q] == q.
Proof. unfold Qsum. simpl. ring. Qed.

Lemma Qsum_seq_S (f : nat -> Q) (m : nat) :
  Qsum (map f (seq 0 (S m))) == Qsum (map f (seq 0 m)) + f m.
Proof.
  rewrite seq_S, map_app, Qsum_app. cbn [map Nat.add]. now rewrite Qsum_single.
Qed.

Lemma Qsum_seq_shift (f : nat -> Q) (m : nat) :
  Qsum (map f (seq 0 (S m)))
  == f 0%nat + Qsum (map (fun k => f (S k)) (seq 0 m)).
Proof.
  cbn [seq map]. rewrite Qsum_cons, <- seq_shift, map_map. reflexivity.
Qed.

(** [x] to the power [k], with the exponent a natural number. *)
Definition npow (x : Q) (k : nat) : Q := x ^ Z.of_nat k.

Lemma npow_S (x : Q) (k : nat) : npow x (S k) == x * npow x k.
Proof.
  unfold npow. rewrite Nat2Z.inj_succ. unfold Z.succ.
  rewrite Qpower_plus' by lia. rewrite Qpower_1_r. ring.
Qed.

(** A term of the binomial expansion of [(x + y)^m]. *)
Definition term (x y : Q) (m k : nat) : Q :=
  inject_Z (Z.of_nat (comb m k)) * npow x k * npow y (m - k).

Lemma term_0 (x y : Q) (m : nat) : term x y (S m) 0 == y * term x y m 0.
Proof.
  unfold term. rewrite !Monotone.comb_0_r, !Nat.sub_0_r, npow_S. ring.
Qed.

Lemma term_S (x y : Q) (m k : nat) :
  term x y (S m) (S k) == x * term x y m k + y * term x y m (S k).
Proof.
  unfold term. change (comb (S m) (S k)) with (comb m k + comb m (S k))%nat.
  rewrite Nat2Z.inj_add, inject_Z_plus, npow_S.
  replace (S m - S k)%nat with (m - k)%nat by lia.
  destruct (Nat.le_gt_cases (S k) m) as [Hle|Hgt].
  - replace (m - k)%nat with (S (m - S k)) by lia. rewrite npow_S. ring.
  - rewrite (comb_gt m (S k)) by lia. change (inject_Z (Z.of_nat 0)) with 0.
    ring.
Qed.

Lemma expansion_step (x y : Q) (m : nat) :
  Qsum (map (term x y (S m)) (seq 0 (S (S m))))
  == (x + y) * Qsum (map (term x y m) (seq 0 (S m))).
Proof.
  set (B := Qsum (map (fun k => term x y m (S k)) (seq 0 m))).
  assert (EA : Qsum (map (term x y m) (seq 0 (S m))) == term x y m 0 + B)
    by apply Qsum_seq_shift.
  assert (EB : Qsum (map (fun k => term x y m (S k)) (seq 0 (S m))) == B).
  { rewrite Qsum_seq_S. fold B. unfold term. rewrite comb_gt by lia.
    change (inject_Z (Z.of_nat 0)) with 0. ring. }
  rewrite Qsum_seq_shift, term_0.
  rewrite (Qsum_map_ext _ (fun k => x * term x y m k + y * term x y m (S k)))
    by (intros k; apply term_S).
  rewrite Qsum_map_plus, !Qsum_map_scal, EB, EA. ring.
Qed.

Lemma expansion (x y : Q) (m : nat) :
  Qsum (map (term x y m) (seq 0 (S m))) == npow (x + y) m.
Proof.
  induction m as [|m IH].
  - cbn [seq map]. rewrite Qsum_single. unfold term, npow. simpl. ring.
  - rewrite expansion_step, IH, npow_S. reflexivity.
Qed.

Lemma lik_term (k : nat) (p : Q) :
  (k <= n)%nat -> lik n k p == term p (1 - p) n k.
Proof.
  intros Hk. unfold lik, term, npow.
  replace (Z.of_nat n - Z.of_nat k)%Z with (Z.of_nat (n - k)) by lia.
  reflexivity.
Qed.

Lemma lik_total (p : Q) : Qsum (map (fun k => lik n k p) (seq 0 (S n))) == 1.
Proof.
  transitivity (Qsum (map (term p (1 - p) n) (seq 0 (S n)))).
  - assert (H : forall l, Forall (fun k => (k <= n)%nat) l ->
                  Qsum (map (fun k => lik n k p) l)
                  == Qsum (map (term p (1 - p) n) l)).
    { induction 1 as [|k l Hk _ IH]; cbn [map]; [reflexivity|].
      now rewrite !Qsum_cons, IH, lik_term. }
    apply H. apply List.Forall_forall. intros k Hin.
    apply in_seq in Hin. lia.
  - rewrite expansion. unfold npow.
    assert (E : p + (1 - p) == 1) by ring. rewrite E. apply Qpower_1.
Qed.

Lemma Qsum_ge_elem (l : list Q) (x : Q) :
  Forall (fun q => 0 <= q) l -> In x l -> x <= Qsum l.
Proof.
  induction 1 as [|q l Hq Hl IH]; intros Hin; [destruct Hin|].
  rewrite Qsum_cons. pose proof (Qsum_nonneg l Hl) as Hs.
  destruct Hin as [->|Hin]; [lra|]. specialize (IH Hin). lra.
Qed.

End Binomial.

(** X1.  For a probability [p] and a head count [k <= n] whose binomial
    coefficient fits a double, [compute_likelihood] returns a number in
    [0,1]. *)
Theorem likelihood_probability (k n : nat) (p : Q) :
  (k <= n)%nat -> 0 <= p <= 1 -> fits n k ->
  exists q, Overflow.compute_likelihood k n (Fin p) = Returns (Fin q)
            /\ 0 <= q <= 1.
Proof.
  intros Hk Hp Hf. exists (lik n k p).
  rewrite compute_likelihood_fits by exact Hf.
  split; [now rewrite compute_likelihood_Fin|].
  split; [now apply lik_nonneg|].
  rewrite <- (lik_total n p). apply Qsum_ge_elem.
  - apply List.Forall_map. apply List.Forall_forall. intros i _.
    now apply lik_nonneg.
  - apply in_map_iff. exists k. split; [reflexivity|].
    apply in_seq. lia.
Qed.

Lemma likelihood_probability_witness :
  exists q, Overflow.compute_likelihood 3 10 (Fin (1 # 3)) = Returns (Fin q)
            /\ 0 <= q <= 1.
Proof.
  apply (likelihood_probability 3 10 (1 # 3)).
  - lia.
  - split; discriminate.
  - vm_compute. reflexivity.
Defined.

(** X3.  In the E-step of an experiment with a head count within the
    number of tosses (its coefficient fitting a double) and current
    parameters that are probabilities, either all four entries of the two
    rows are [nan], or the two responsibilities are numbers in [0,1]. *)
Theorem e_step_weights (n h : nat) (t : Z) (pa pb : Q) :
  (h <= n)%nat -> fits n h -> 0 <= pa <= 1 -> 0 <= pb <= 1 ->
  let lA := compute_likelihood h n (Fin pa) in
  let lB := compute_likelihood h n (Fin pb) in
  let rA := fst (e_step n (Fin pa) (Fin pb) h t) in
  let rB := snd (e_step n (Fin pa) (Fin pb) h t) in
  (Overflow.compute_likelihood h n (Fin pa) = Returns lA
   /\ Overflow.compute_likelihood h n (Fin pb) = Returns lB)
  /\ ((rA = (NaN, NaN) /\ rB = (NaN, NaN))
      \/ (exists wa wb,
             weightA lA lB = Fin wa /\ weightB lA lB = Fin wb
             /\ 0 <= wa <= 1 /\ 0 <= wb <= 1)).
Proof.
  intros Hh Hf Ha Hb lA lB rA rB. subst lA lB rA rB.
  split; [split; now apply compute_likelihood_fits|].
  unfold e_step.
  rewrite !compute_likelihood_Fin by exact Hh. cbn [fst snd].
  pose proof (lik_nonneg n h pa Ha) as Pa.
  pose proof (lik_nonneg n h pb Hb) as Pb.
  destruct (Qeq_dec (lik n h pa + lik n h pb) 0) as [Ez|Enz].
  - left.
    assert (Ea : lik n h pa == 0) by lra. assert (Eb : lik n h pb == 0) by lra.
    destruct (weight_zero_zero (Fin (lik n h pa)) (Fin (lik n h pb)) Ea Eb)
      as [-> ->].
    split; reflexivity.
  - right.
    destruct (weights_range n pa pb h Pa Pb Enz) as (RA & RB & _).
    exists (wA n pa pb h), (wB n pa pb h).
    unfold weightA, weightB.
    change (Fin (lik n h pa) + Fin (lik n h pb))%fl
      with (Fin (lik n h pa + lik n h pb)).
    rewrite !fdiv_Fin_nonzero by exact Enz.
    fold (wA n pa pb h). fold (wB n pa pb h).
    split; [reflexivity|]. split; [reflexivity|]. split; assumption.
Qed.

Lemma e_step_weights_witness :
  exists wa wb,
    weightA (compute_likelihood 5 10 (Fin (3 # 5)))
            (compute_likelihood 5 10 (Fin (1 # 2))) = Fin wa
    /\ weightB (compute_likelihood 5 10 (Fin (3 # 5)))
               (compute_likelihood 5 10 (Fin (1 # 2))) = Fin wb
    /\ 0 <= wa <= 1.
Proof.
  destruct (e_step_weights 10 5 5 (3 # 5) (1 # 2)) as (_ & [(E & _)|H]).
  - lia.
  - vm_compute. reflexivity.
  - split; discriminate.
  - split; discriminate.
  - vm_compute in E. discriminate.
  - destruct H as (wa & wb & EA & EB & RA & _).
    exists wa, wb. auto.
Defined.

End LikelihoodFacts.
